(** * visvis: turning a 3D poly-line into a tube mesh (processing/lineToMesh.py)

    A shallow embedding of [getSpanVectors], [getCircle] and [lineToMesh].

    Numbers.  The Python code computes on floats (float32 arrays, float64
    scalars).  The embedding reads every float as a real number of the
    Standard Library: [+], [*], [/], [sqrt], [cos], [sin] and [PI] are the
    exact operations, so the statements below are statements about the
    algorithm in exact arithmetic; rounding is not modelled.  Division by
    zero is the Standard Library's total inverse, so that [normalize]
    sends the zero vector to itself, where the program divides by zero.
    That happens in [lineToMesh] when two consecutive points of the line
    are equal or when the two tangents at a joint are opposite; the
    statements about tangents, frames and the geometry of the rings are
    made for the lines that are [regular], on which it does not happen.

    Vectors.  [Point] and [Pointset] come from [visvis.pypoints], another
    module of visvis, which is not among the sources; here a [Point] is a
    3-component vector with the usual operations and a [Pointset] is a
    list of [Point]s.  The ring formulas of [lineToMesh]
    ([pp[0] - (j/5.0)*bufdist*normals[0]], [point2 - bufdist*normal1])
    take [-] on two points as the usual difference; for [-] on two
    pointsets see [pointsetSub].

    Indices.  Once [bufdist] has been computed the line has at least two
    points, and [pp], [radius] and [normals] have one entry per point, so
    that every index the code uses is in range.

    Python version.  The sources are Python 2 (they use the print
    statement), so [/] on two integers is floor division. *)

From Stdlib Require Import Reals Lra Lia ZArith List Bool Arith.
From Stdlib Require String Ascii DecimalString.
Import ListNotations.

Local Open Scope R_scope.

(* ================================================================== *)
(** ** Points *)

(** Modelled from the spec: the point type of [visvis.pypoints], which
    [lineToMesh.py] imports.  The specification describes it as an opaque
    3-component vector with standard operations: sum, difference, scalar
    multiple, cross product, Euclidean norm and distance, normalisation
    (division by the norm) and equality of the coordinates. *)
Module Vec.

Record Point : Type := mkPoint { px : R; py : R; pz : R }.

Definition origin : Point := mkPoint 0 0 0.

Definition add (p q : Point) : Point :=
  mkPoint (px p + px q) (py p + py q) (pz p + pz q).

Definition sub (p q : Point) : Point :=
  mkPoint (px p - px q) (py p - py q) (pz p - pz q).

(** [s * p] for a scalar [s]. *)
Definition scale (s : R) (p : Point) : Point :=
  mkPoint (s * px p) (s * py p) (s * pz p).

Definition dot (p q : Point) : R :=
  px p * px q + py p * py q + pz p * pz q.

(** [p.cross(q)] *)
Definition cross (p q : Point) : Point :=
  mkPoint (py p * pz q - pz p * py q)
          (pz p * px q - px p * pz q)
          (px p * py q - py p * px q).

(** [p.norm()] *)
Definition norm (p : Point) : R := sqrt (dot p p).

(** [p.distance(q)] *)
Definition distance (p q : Point) : R := norm (sub p q).

(** [p.normalize()]: the point divided by its norm.  For the zero
    vector the program divides by zero; the value here is the zero vector
    again, and nothing is stated below about a line on which a zero
    vector is normalised, but how many rings, vertices and faces it
    gives. *)
Definition normalize (p : Point) : Point := scale (/ norm p) p.

Definition Point_eq_dec (p q : Point) : {p = q} + {p <> q}.
Proof.
  destruct p as [x1 y1 z1], q as [x2 y2 z2].
  destruct (Req_dec_T x1 x2) as [Hx | Hx];
    [ | right; intro H; injection H; intros; contradiction ].
  destruct (Req_dec_T y1 y2) as [Hy | Hy];
    [ | right; intro H; injection H; intros; contradiction ].
  destruct (Req_dec_T z1 z2) as [Hz | Hz];
    [ | right; intro H; injection H; intros; contradiction ].
  left; subst; reflexivity.
Defined.

(** [p == q] *)
Definition eqb (p q : Point) : bool :=
  if Point_eq_dec p q then true else false.

End Vec.

Import Vec.

(* ================================================================== *)
(** ** The frame propagator *)

(** Lines 20-27 of [getSpanVectors]: the candidate for [a], before its
    sign is chosen. *)
Definition firstCandidate (normal c d : Point) : Point :=
  (* Calculate a from previous b *)
  let a1 := cross d normal in
  if Rlt_dec (norm a1) 0.001 then
    (* The normal and d point in same or reverse direction
       -> Calculate b from previous a *)
    let b1 := cross c normal in
    cross b1 normal
  else a1.

(** Lines 20-35: the two vectors of [getSpanVectors] just before they are
    normalised. *)
Definition spanCandidates (normal c d : Point) : Point * Point :=
  let a1 := firstCandidate normal c d in
  (* Consider the opposite direction *)
  let a2 := scale (-1) a1 in
  let a1 := if Rlt_dec (distance c a2) (distance c a1) then a2 else a1 in
  (* Ok, calculate b *)
  let b1 := cross a1 normal in
  (a1, b1).

(** [getSpanVectors(normal, prevA, prevB) -> (a,b)] *)
Definition getSpanVectors (normal c d : Point) : Point * Point :=
  let '(a1, b1) := spanCandidates normal c d in
  (normalize a1, normalize b1).

(** [getCircle(angles_cos, angles_sin, a, b) -> circle_cords]: one row
    [cos*a + sin*b] per angle. *)
Definition getCircle (angles_cos angles_sin : list R) (a b : Point)
  : list Point :=
  map (fun cs : R * R =>
         mkPoint (fst cs * px a + snd cs * px b)
                 (fst cs * py a + snd cs * py b)
                 (fst cs * pz a + snd cs * pz b))
      (combine angles_cos angles_sin).

(* ================================================================== *)
(** ** Exceptions *)

Inductive exn : Type :=
| ValueError
| ZeroDivisionError.

Inductive result (A : Type) : Type :=
| Ok (a : A)
| Raise (e : exn).

Arguments Ok {A} a.
Arguments Raise {A} e.

Definition bind {A B : Type} (m : result A) (k : A -> result B) : result B :=
  match m with
  | Ok a => k a
  | Raise e => Raise e
  end.

Notation "x <- m ;; k" := (bind m (fun x => k))
  (at level 61, m at next level, right associativity).

(* ================================================================== *)
(** ** The numpy operations used by [lineToMesh] *)

(** Smallest integer not below [x]. *)
Definition ceilR (x : R) : Z := (1 - up (- x))%Z.

(** Number of elements of [np.arange(start, stop, step)]:
    [ceil((stop - start)/step)], none when that is negative. *)
Definition arange_len (start stop step : R) : nat :=
  Z.to_nat (ceilR ((stop - start) / step)).

(** [np.arange(start, stop, step)] *)
Definition arange (start stop step : R) : list R :=
  map (fun k : nat => start + INR k * step)
      (seq 0 (arange_len start stop step)).

(** [x.max()] and [x.min()]: an empty array has no maximum or minimum
    and the reduction raises [ValueError]. *)
Definition amax (l : list R) : result R :=
  match l with
  | [] => Raise ValueError
  | x :: xs => Ok (fold_left Rmax xs x)
  end.

Definition amin (l : list R) : result R :=
  match l with
  | [] => Raise ValueError
  | x :: xs => Ok (fold_left Rmin xs x)
  end.

(** Element-wise operation on two pointsets of the same length. *)
Fixpoint map2 {A B C : Type} (f : A -> B -> C) (l1 : list A) (l2 : list B)
  : list C :=
  match l1, l2 with
  | x :: l1', y :: l2' => f x y :: map2 f l1' l2'
  | _, _ => []
  end.

(** [x / y] for a float [x] and a Python int [y]. *)
Definition float_div_int (x : R) (y : Z) : result R :=
  if Z.eqb y 0 then Raise ZeroDivisionError else Ok (x / IZR y).

(* ================================================================== *)
(** ** The radius argument *)

(** [radius] is either a number or something with a length. *)
Inductive radius_arg : Type :=
| RScalar (r : R)
| RSeq (rs : list R).

(** Lines 74-80: "process radius". *)
Definition process_radius (radius : radius_arg) (n : nat)
  : result (list R) :=
  match radius with
  | RSeq rs =>
      if negb (Nat.eqb (length rs) n) then
        Raise ValueError  (* 'Len of radii much match len of points.' *)
      else Ok rs
  | RScalar r => Ok (map (Rmult r) (repeat 1 n))
  end.

(* ================================================================== *)
(** ** Rings *)

(** One circle of the tube.  The source extends [vertices] by [circmp] and
    [surfaceNormals] by a pointset of the same length and adds one to
    [n_cylinders]; a ring keeps these two pointsets together with the
    quantities [circmp] was built from: the frame [(a, b)] that [circm] was
    sampled with, the factor that multiplies [circm] and the point that is
    added to it. *)
Record Ring : Type := mkRing {
  ring_frame : Point * Point;
  ring_scale : R;
  ring_center : Point;
  ring_vertices : list Point;
  ring_normals : list Point
}.

(** [float(s)*circm + c] *)
Definition place (s : R) (circm : list Point) (c : Point) : list Point :=
  map (fun p => add (scale s p) c) circm.

(** [-1 * (circmp - apex).normalize()], the difference of a pointset and
    a point being taken point by point, as [p - apex]. *)
Definition capNormals (circmp : list Point) (apex : Point) : list Point :=
  map (fun p => scale (-1) (normalize (sub p apex))) circmp.

(** A circle of the tube proper: [circmp = float(s)*circm + c] goes to
    [vertices] and [circm] itself to [surfaceNormals]. *)
Definition tubeRing (frame : Point * Point) (circm : list Point) (s : R)
    (c : Point) : Ring :=
  mkRing frame s c (place s circm c) circm.

(** A circle of a half sphere around [apex]: the normals are
    [-1 * (circmp - apex).normalize()]. *)
Definition capRing (frame : Point * Point) (circm : list Point) (s : R)
    (c apex : Point) : Ring :=
  mkRing frame s c (place s circm c) (capNormals (place s circm c) apex).

(** State of the assembly: the current frame [a], [b], the current unit
    circle [circm], and the rings stored so far, in the order in which they
    were stored ([vertices], [surfaceNormals] and [n_cylinders] are read off
    the rings). *)
Record Asm : Type := mkAsm {
  asm_a : Point;
  asm_b : Point;
  asm_circm : list Point;
  asm_rings : list Ring
}.

Definition store (st : Asm) (r : Ring) : Asm :=
  mkAsm (asm_a st) (asm_b st) (asm_circm st) (asm_rings st ++ [r]).

(** [pp[i]] for an index that is in range; [pp[-1]] and [pp[-2]]. *)
Definition item {A : Type} (d : A) (l : list A) (i : nat) : A := nth i l d.
Definition item_last {A : Type} (d : A) (l : list A) : A :=
  nth (length l - 1) l d.
Definition item_last2 {A : Type} (d : A) (l : list A) : A :=
  nth (length l - 2) l d.

(** Lines 92: "check if line is closed". *)
Definition isClosed (pp : list Point) : bool :=
  eqb (item origin pp 0) (item_last origin pp).

(** Modelled from the spec: the difference [A - B] of two pointsets, an
    operator of the class [Pointset] of [visvis.pypoints], which is not
    among the sources.  It is taken component by component,
    [(A - B)[i] = A[i] - B[i]]: with it [-1 * (pp[1:] - pp[:-1])] points
    from [pp[i+1]] to [pp[i]], which is what the specification says of
    the tangents ("the normalized vector from point i+1 to point i").
    The sources alone do not settle the order of this difference; what
    depends on it is the orientation of the tangents of all points but
    the last. *)
Definition pointsetSub (A B : list Point) : list Point := map2 sub A B.

(** Lines 94-100: "calculate normal vectors on each line point", with
    [psub] for the difference of two pointsets of line 95.  The
    difference that is appended in line 97 or 99 is one of two points. *)
Definition lineNormalsWith (psub : list Point -> list Point -> list Point)
    (pp : list Point) : list Point :=
  let normals := psub (tl pp) (removelast pp) in
  let normals :=
    if isClosed pp then
      normals ++ [sub (item origin pp 0) (item origin pp 1)]
    else
      normals ++ [sub (item_last2 origin pp) (item_last origin pp)] in
  map (fun v => scale (-1) (normalize v)) normals.

Definition lineNormals (pp : list Point) : list Point :=
  lineNormalsWith pointsetSub pp.

(** Lines 87-89: distances between consecutive points, and [bufdist]. *)
Definition lineDists (pp : list Point) : list R :=
  map2 distance (tl pp) (removelast pp).

Definition bufferDistance (radius : list R) (pp : list Point) : result R :=
  rmax <- amax radius ;;
  dmin <- amin (lineDists pp) ;;
  Ok (Rmin rmax (dmin / 2.2)).

Section Assembly.

Variable pp : list Point.
Variable radius : list R.
Variables angle_cos angle_sin : list R.
Variable bufdist : R.
Variable lclosed : bool.
Variable normals : list Point.

(** One step of the start cap, lines 119-127, for [j] in 5, 4, 3, 2, 1. *)
Definition startCapRing (st : Asm) (j : Z) : Ring :=
  (* Translate the circle on it's position on the line *)
  let r := sqrt (1 - (IZR j / 5) ^ 2) in
  let center :=
    sub (item origin pp 0)
        (scale (IZR j / 5 * bufdist) (item origin normals 0)) in
  capRing (asm_a st, asm_b st) (asm_circm st) (r * item 0 radius 0) center
          (item origin pp 0).

(** One step of the end cap, lines 185-193, for [j] in 0 .. 5. *)
Definition endCapRing (st : Asm) (j : Z) : Ring :=
  (* Translate the circle on it's position on the line *)
  let r := sqrt (1 - (IZR j / 5) ^ 2) in
  let center :=
    add (item_last origin pp)
        (scale (IZR j / 5 * bufdist) (item_last origin normals)) in
  capRing (asm_a st, asm_b st) (asm_circm st) (r * item_last 0 radius)
          center (item_last origin pp).

(** Lines 132-157: the two circles of the cylinder of line piece [i]. *)
Definition cylinder (i : nat) (st : Asm) : Asm :=
  (* get normal and point *)
  let normal1 := item origin normals i in
  let point1 := item origin pp i in
  (* calculate the 3D circle coordinates *)
  let '(a, b) := getSpanVectors normal1 (asm_a st) (asm_b st) in
  let circm := getCircle angle_cos angle_sin a b in
  (* Translate the circle, and store *)
  let ring1 :=
    tubeRing (a, b) circm (item 0 radius i)
             (add point1 (scale bufdist normal1)) in
  (* calc second normal and line *)
  let point2 := item origin pp (i + 1) in
  (* Translate the circle, and store *)
  let ring2 :=
    tubeRing (a, b) circm (item 0 radius (i + 1))
             (sub point2 (scale bufdist normal1)) in
  mkAsm a b circm (asm_rings st ++ [ring1; ring2]).

(** Lines 165-168: normal and point of the in-between circle after line
    piece [i]. *)
Definition jointNormal (i : nat) : Point :=
  normalize (add (item origin normals i) (item origin normals (i + 1))).

Definition jointCenter (i : nat) : Point :=
  let normal1 := item origin normals i in
  let normal2 := item origin normals (i + 1) in
  let point2 := item origin pp (i + 1) in
  let tmp := add (add point2 (scale bufdist normal2))
                 (sub point2 (scale bufdist normal1)) in
  add (scale 0.5858 point2) (scale 0.4142 (scale 0.5 tmp)).

(** Lines 165-178: "Create in between circle to smoothly connect line
    pieces". *)
Definition joint (i : nat) (st : Asm) : Asm :=
  (* get normal and point *)
  let normal12 := jointNormal i in
  let point12 := jointCenter i in
  (* Calculate the 3D circle coordinates *)
  let '(a, b) := getSpanVectors normal12 (asm_a st) (asm_b st) in
  let circm := getCircle angle_cos angle_sin a b in
  (* Translate the circle, and store *)
  let ring := tubeRing (a, b) circm (item 0 radius (i + 1)) point12 in
  mkAsm a b circm (asm_rings st ++ [ring]).

(** Lines 130-178: "Loop through all line pieces", [idx] being the indices
    still to visit; the [break] leaves the loop. *)
Fixpoint sweep (idx : list nat) (st : Asm) : Asm :=
  match idx with
  | [] => st
  | i :: rest =>
      let st := cylinder i st in
      if negb lclosed && Nat.eqb i (length pp - 2) then st (* break *)
      else sweep rest (joint i st)
  end.

(** Lines 195-207: the circle that ends a closed line. *)
Definition closingRing (st : Asm) : Asm :=
  (* get normal and point *)
  let normal1 := item_last origin normals in
  let point1 := item_last origin pp in
  (* calculate the 3D circle coordinates *)
  let '(a, b) := getSpanVectors normal1 (asm_a st) (asm_b st) in
  let circm := getCircle angle_cos angle_sin a b in
  (* Translate the circle, and store *)
  let ring :=
    tubeRing (a, b) circm (item 0 radius 0)
             (add point1 (scale bufdist normal1)) in
  mkAsm a b circm (asm_rings st ++ [ring]).

(** Lines 109-114: the first frame and circle. *)
Definition initialState : Asm :=
  (* Init a and b *)
  let a := mkPoint 0 0 1 in
  let b := mkPoint 0 1 0 in
  (* Calculate the 3D circle coordinates of the first circle/cylinder *)
  let '(a, b) := getSpanVectors (item origin normals 0) a b in
  let circm := getCircle angle_cos angle_sin a b in
  mkAsm a b circm [].

(** Lines 102-207. *)
Definition assemble : list Ring :=
  let st := initialState in
  (* If not a closed line, add half sphere made with 5 cylinders at
     line start *)
  let st :=
    if negb lclosed then
      fold_left (fun s j => store s (startCapRing s j))
                [5; 4; 3; 2; 1]%Z st
    else st in
  (* Loop through all line pieces *)
  let st := sweep (seq 0 (length pp - 1)) st in
  (* If not a closed line, add half sphere made with 5 cylinders at
     line start.  Otherwise add the starting circle to the line end. *)
  let st :=
    if negb lclosed then
      fold_left (fun s j => store s (endCapRing s j))
                [0; 1; 2; 3; 4; 5]%Z st
    else closingRing st in
  asm_rings st.

End Assembly.

(* ================================================================== *)
(** ** Faces *)

Definition Quad : Type := (Z * Z * Z * Z)%type.

(** [x.shape = len(x)/4, 4] on a flat array: rows of four; the length has
    to be four times the (floored) quotient. *)
Fixpoint rows4 (l : list Z) : list Quad :=
  match l with
  | a :: b :: c :: d :: rest => (a, b, c, d) :: rows4 rest
  | _ => []
  end.

Definition reshape4 (l : list Z) : result (list Quad) :=
  if Nat.eqb (Nat.div (length l) 4 * 4) (length l)
  then Ok (rows4 l) else Raise ValueError.

(** [range(n)] for a Python int [n]. *)
Definition range (n : Z) : list Z := map Z.of_nat (seq 0 (Z.to_nat n)).

(** Lines 213-221: "define single round".  The entries are stored as
    uint32; the model keeps them as integers, which is what the array
    holds as long as they are below 2^32. *)
Definition oneRound (vertex_num : Z) : list Z :=
  let firstFace := [0; 1; vertex_num + 1; vertex_num]%Z in
  let lastFace :=
    [vertex_num - 1; 0; vertex_num; 2 * vertex_num - 1]%Z in
  flat_map (fun i => map (fun val => (val + i)%Z) firstFace)
           (range (vertex_num - 1))
  ++ lastFace.

(** Lines 223-228: "calculate face data"; [np.concatenate] needs at least
    one array. *)
Definition buildFaces (n_cylinders : Z) (vertex_num : Z)
  : result (list Quad) :=
  let parts :=
    map (fun i => map (fun val => (val + i * vertex_num)%Z)
                      (oneRound vertex_num))
        (range (n_cylinders - 1)) in
  match parts with
  | [] => Raise ValueError
  | _ => reshape4 (concat parts)
  end.

(** The specification's description of the faces: round [k] consists of
    the quads [(j, j+1, vertexNum+j+1, vertexNum+j)] for [j] in
    [0, vertexNum-1) and of the closing quad
    [(vertexNum-1, 0, vertexNum, 2*vertexNum-1)], all offset by
    [k*vertexNum]. *)
Definition roundQuads (vertexNum k : Z) : list Quad :=
  map (fun j => (j + k * vertexNum, j + 1 + k * vertexNum,
                 vertexNum + j + 1 + k * vertexNum,
                 vertexNum + j + k * vertexNum)%Z)
      (range (vertexNum - 1))
  ++ [(vertexNum - 1 + k * vertexNum, 0 + k * vertexNum,
       vertexNum + k * vertexNum, 2 * vertexNum - 1 + k * vertexNum)%Z].

(** The four entries of a row. *)
Definition quadEntries (q : Quad) : list Z :=
  let '(a, b, c, d) := q in [a; b; c; d].

(** All four indices of a quad are in [[0, bound)]. *)
Definition quadBelow (bound : Z) (q : Quad) : Prop :=
  let '(a, b, c, d) := q in
  (0 <= a < bound /\ 0 <= b < bound /\ 0 <= c < bound /\ 0 <= d < bound)%Z.

(* ================================================================== *)
(** ** lineToMesh *)

Record BaseMesh : Type := mkBaseMesh {
  vertices : list Point;
  surfaceNormals : list Point;
  faces : list Quad
}.

(** Lines 82-85: the angles of the 2D circle,
    [np.arange(0, pi*2-0.0001, pi*2/vertex_num)]. *)
Definition circleAngles (vertex_num : Z) : result (list R) :=
  step <- float_div_int (PI * 2) vertex_num ;;
  Ok (arange 0 (PI * 2 - 0.0001) step).

(** The angles for a [vertex_num] that is not 0. *)
Definition tubeAngles (vertex_num : Z) : list R :=
  arange 0 (PI * 2 - 0.0001) (PI * 2 / IZR vertex_num).

(** A radius that is a number, or a sequence with one entry per point. *)
Definition radiusOk (radius : radius_arg) (n : nat) : Prop :=
  match radius with
  | RScalar _ => True
  | RSeq rs => length rs = n
  end.

(** Lines 70-207 of [lineToMesh]: everything up to the rings. *)
Definition lineToMesh_rings (pp : list Point) (radius : radius_arg)
    (vertex_num : Z) : result (list Ring) :=
  (* process radius *)
  radius <- process_radius radius (length pp) ;;
  (* calculate vertex points for 2D circle *)
  angles <- circleAngles vertex_num ;;
  let angle_cos := map cos angles in
  let angle_sin := map sin angles in
  (* calculate distance between two line pieces (for smooth cylinders) *)
  bufdist <- bufferDistance radius pp ;;
  (* check if line is closed *)
  let lclosed := isClosed pp in
  (* calculate normal vectors on each line point *)
  let normals := lineNormals pp in
  Ok (assemble pp radius angle_cos angle_sin bufdist lclosed normals).

(** [lineToMesh(pp, radius, vertex_num)] *)
Definition lineToMesh (pp : list Point) (radius : radius_arg)
    (vertex_num : Z) : result BaseMesh :=
  rings <- lineToMesh_rings pp radius vertex_num ;;
  let n_cylinders := Z.of_nat (length rings) in
  faces <- buildFaces n_cylinders vertex_num ;;
  Ok (mkBaseMesh (concat (map ring_vertices rings))
                 (concat (map ring_normals rings))
                 faces).

(* ================================================================== *)
(** ** Two small lines *)

Definition unitX : Point := mkPoint 1 0 0.

(** An open line of two points, from the origin to (1,0,0). *)
Definition shortLine : list Point := [origin; unitX].

(** A closed line of three points: to (1,0,0) and back. *)
Definition roundTrip : list Point := [origin; unitX; origin].

(** An open straight line of three points along the x axis. *)
Definition straightLine : list Point := [origin; unitX; mkPoint 2 0 0].

(** A closed line of five points: once around the unit square. *)
Definition squareLoop : list Point :=
  [origin; unitX; mkPoint 1 1 0; mkPoint 0 1 0; origin].

(* ================================================================== *)
(** ** core/misc.py: ranges, colours, the OpenGl version *)

Module Misc.

Import String Ascii.
Local Open Scope string_scope.

Inductive exn : Type :=
| ValueError (msg : string)
| KeyError (key : string)
| IndexError.

Inductive outcome (A : Type) : Type :=
| Return (a : A)
| Raises (e : exn).

Arguments Return {A} a.
Arguments Raises {A} e.

(** *** class Range *)

Record Range : Type := mkRange { _min : R; _max : R }.

(** [_Check]: "Flip min and max if order is wrong." *)
Definition _Check (self : Range) : Range :=
  if Rlt_dec (_max self) (_min self)
  then mkRange (_max self) (_min self)
  else self.

(** The first argument of the constructor and of [Set]: a [Range], a
    tuple or list, or a number. *)
Inductive RangeArg : Type :=
| OfRange (r : Range)
| OfSeq (l : list R)
| OfNumber (x : R).

(** [Set(min, max)] on any range: both bounds are overwritten. *)
Definition RangeSet (min : RangeArg) (max : R) : outcome Range :=
  match min with
  | OfRange r => Return (_Check (mkRange (_min r) (_max r)))
  | OfSeq l =>
      match l with
      | a :: b :: _ => Return (_Check (mkRange a b))
      | _ => Raises IndexError
      end
  | OfNumber x => Return (_Check (mkRange x max))
  end.

(** [range] *)
Definition range (self : Range) : R := _max self - _min self.

(** The setters of [min] and [max]. *)
Definition set_min (self : Range) (value : R) : Range :=
  _Check (mkRange value (_max self)).

Definition set_max (self : Range) (value : R) : Range :=
  _Check (mkRange (_min self) value).

(** [Copy]: [Range(self.min, self.max)] *)
Definition Copy (self : Range) : outcome Range :=
  RangeSet (OfNumber (_min self)) (_max self).

(** *** getColor *)

(** A number of Python: an int or a float. *)
Inductive PyNum : Type :=
| PyInt (z : Z)
| PyFloat (x : R).

Definition Color : Type := list PyNum.

Definition colorDict : list (string * Color) :=
  [ ("black", [PyInt 0; PyInt 0; PyInt 0]); ("k", [PyInt 0; PyInt 0; PyInt 0]);
    ("white", [PyInt 1; PyInt 1; PyInt 1]); ("w", [PyInt 1; PyInt 1; PyInt 1]);
    ("red", [PyInt 1; PyInt 0; PyInt 0]); ("r", [PyInt 1; PyInt 0; PyInt 0]);
    ("green", [PyInt 0; PyInt 1; PyInt 0]); ("g", [PyInt 0; PyInt 1; PyInt 0]);
    ("blue", [PyInt 0; PyInt 0; PyInt 1]); ("b", [PyInt 0; PyInt 0; PyInt 1]);
    ("cyan", [PyInt 0; PyInt 1; PyInt 1]); ("c", [PyInt 0; PyInt 1; PyInt 1]);
    ("yellow", [PyInt 1; PyInt 1; PyInt 0]); ("y", [PyInt 1; PyInt 1; PyInt 0]);
    ("magenta", [PyInt 1; PyInt 0; PyInt 1]);
    ("m", [PyInt 1; PyInt 0; PyInt 1]) ]%list.

(** [d[key]] *)
Fixpoint getitem {A : Type} (d : list (string * A)) (key : string)
  : outcome A :=
  match d with
  | [] => Raises (KeyError key)
  | (k, v) :: d' => if String.eqb k key then Return v else getitem d' key
  end%list.

(** [s in t] for two strings: [s] occurs in [t]. *)
Fixpoint occursIn (s t : string) : bool :=
  prefix s t ||
  match t with
  | EmptyString => false
  | String _ t' => occursIn s t'
  end.

(** The values that [getColor] tells apart: [None], a string, a list or
    tuple of numbers, anything else with its truth value. *)
Inductive PyValue : Type :=
| PyNone
| PyStr (s : string)
| PySeq (l : list PyNum)
| PyOther (truth : bool).

(** [bool(value)] *)
Definition truth (value : PyValue) : bool :=
  match value with
  | PyNone => false
  | PyStr s => negb (String.eqb s "")
  | PySeq l => negb (Nat.eqb (List.length l) 0)
  | PyOther t => t
  end.

(** [getColor(value, descr='getColor')]; the result is [None] or a
    colour. *)
Definition getColor (value : PyValue) (descr : string)
  : outcome (option Color) :=
  let err tmp := Raises (ValueError ("Error in " ++ descr ++ ": " ++ tmp)) in
  if negb (truth value) then Return None
  else
    match value with
    | PyStr s =>
        if negb (occursIn s "rgbycmkw") then
          err "string color must be one of 'rgbycmkw' !"
        else
          match getitem colorDict s with
          | Return c => Return (Some c)
          | Raises e => Raises e
          end
    | PySeq l =>
        if negb (Nat.eqb (List.length l) 3) then
          err "tuple color must be length 3!"
        else Return (Some l)
    | _ => err "color must be a three element tuple or a character!"
    end.

(** The substrings of a string, to enumerate what [occursIn] accepts. *)
Fixpoint prefixes (t : string) : list string :=
  ("" :: match t with
         | EmptyString => []
         | String c t' => List.map (String c) (prefixes t')
         end)%list.

Fixpoint substrings (t : string) : list string :=
  (prefixes t ++ match t with
                 | EmptyString => []
                 | String _ t' => substrings t'
                 end)%list.

(** *** getOpenGlCapable *)

(** The strings that [gl.glGetString] is asked for. *)
Inductive GlName : Type := GL_VERSION | GL_VENDOR | GL_RENDERER | GL_EXTENSIONS.

(** The module's globals, and what has been printed. *)
Record Globals : Type := mkGlobals {
  _glInfo : option string * option string * option string * option string;
  _glLimitations : list string;
  printed : list string
}.

(** [not x] for [None] or a string. *)
Definition isFalse (x : option string) : bool :=
  match x with
  | None => true
  | Some s => String.eqb s ""
  end.

(** [getOpenGlInfo()], [glGetString] being what the OpenGl context
    answers ([None] when the context is not set). *)
Definition getOpenGlInfo (glGetString : GlName -> option string)
    (g : Globals)
  : (option string * option string * option string * option string)
    * Globals :=
  let '(v, _, _, _) := _glInfo g in
  if isFalse v then
    let info := (glGetString GL_VERSION, glGetString GL_VENDOR,
                 glGetString GL_RENDERER, glGetString GL_EXTENSIONS) in
    (info, mkGlobals info (_glLimitations g) (printed g))
  else (_glInfo g, g).

(** The [version] argument: a string or an int. *)
Inductive Version : Type :=
| VersionStr (s : string)
| VersionInt (z : Z).

(** [str(version)] *)
Definition str (version : Version) : string :=
  match version with
  | VersionStr s => s
  | VersionInt z => DecimalString.NilZero.string_of_int (Z.to_int z)
  end.

(** [getOpenGlCapable(version, what=None)] *)
Definition getOpenGlCapable (glGetString : GlName -> option string)
    (version : Version) (what : option string) (g : Globals)
  : bool * Globals :=
  (* obtain version of system *)
  let '(curVersion, _, _, _) := _glInfo g in
  let '(curVersion, g) :=
    if isFalse curVersion then
      let '((v, _, _, _), g') := getOpenGlInfo glGetString g in (v, g')
    else (curVersion, g) in
  match curVersion with
  | None => (false, g)
  | Some cur =>
      if String.eqb cur "" then (false, g) (* OpenGl context not set *)
      else
        (* make sure version is a string *)
        let version := str version in
        (* test *)
        if String.leb version cur then (true, g)
        else
          match what with
          | Some w =>
              if negb (String.eqb w "")
                 && negb (existsb (String.eqb w) (_glLimitations g))
              then
                let tmp :=
                  "Warning: the OpenGl version on this system is too low "
                  ++ "to support " ++ w ++ ". "
                  ++ "Try updating your drivers or buy a new video card." in
                (false,
                 mkGlobals (_glInfo g) (w :: _glLimitations g)
                           (printed g ++ [tmp])%list)
              else (false, g)
          | None => (false, g)
          end
  end.

End Misc.

(* ================================================================== *)
(** ** Predicates used in the statements *)

(** A frame: two unit vectors orthogonal to each other. *)
Definition orthonormal (f : Point * Point) : Prop :=
  norm (fst f) = 1 /\ norm (snd f) = 1 /\ dot (fst f) (snd f) = 0.

(** The point of the unit circle spanned by [a] and [b] at angle [t]. *)
Definition circlePoint (a b : Point) (t : R) : Point :=
  add (scale (cos t) a) (scale (sin t) b).

(** A line on which [lineToMesh] normalises no zero vector on the way to
    its tangents and frames: no two consecutive points are equal, and the
    two tangents that a joint adds up are not opposite.  (There is a
    joint after every line piece but the last one of an open line.) *)
Definition regular (pp : list Point) : Prop :=
  (forall i, (i < length pp - 1)%nat ->
     item origin pp i <> item origin pp (i + 1)) /\
  (forall i, (i < length pp - 1)%nat ->
     negb (isClosed pp) && Nat.eqb i (length pp - 2) = false ->
     add (item origin (lineNormals pp) i)
         (item origin (lineNormals pp) (i + 1)) <> origin).

(** A quad that joins the edge from vertex [j] to vertex [j+1] (modulo
    [vertexNum]) of ring [k] to the same edge of ring [k+1]. *)
Definition joinsRings (ringCount vertexNum : Z) (q : Quad) : Prop :=
  let '(a, b, c, d) := q in
  exists k j,
    (0 <= k < ringCount - 1 /\ 0 <= j < vertexNum /\
     a = k * vertexNum + j /\
     b = k * vertexNum + (j + 1) mod vertexNum /\
     c = b + vertexNum /\ d = a + vertexNum)%Z.

(** The vertices of a ring are its circle, sampled with its frame,
    scaled by its factor and moved to its centre. *)
Definition ringPlaced (angle_cos angle_sin : list R) (r : Ring) : Prop :=
  ring_vertices r =
  place (ring_scale r)
        (getCircle angle_cos angle_sin
                   (fst (ring_frame r)) (snd (ring_frame r)))
        (ring_center r).

(* ================================================================== *)
(** * Properties *)

(** ** Vector algebra *)

Ltac coords :=
  repeat match goal with
         | p : Point |- _ => destruct p
         end;
  unfold distance, norm, normalize, dot, cross, sub, add, scale in *;
  cbn [px py pz] in *.

Lemma dot_self_nonneg (p : Point) : 0 <= dot p p.
Proof. coords. nra. Qed.

Lemma norm_nonneg (p : Point) : 0 <= norm p.
Proof. apply sqrt_pos. Qed.

Lemma norm_sqr (p : Point) : norm p * norm p = dot p p.
Proof. unfold norm. apply sqrt_sqrt, dot_self_nonneg. Qed.

Lemma norm_one_dot (p : Point) : norm p = 1 <-> dot p p = 1.
Proof.
  split; intro H.
  - rewrite <- norm_sqr, H. ring.
  - unfold norm. rewrite H. apply sqrt_1.
Qed.

Lemma norm_pos_dot (p : Point) : 0 < norm p <-> 0 < dot p p.
Proof.
  split; intro H.
  - rewrite <- norm_sqr. nra.
  - unfold norm. apply sqrt_lt_R0. exact H.
Qed.

Lemma dot_scale_l (s : R) (p q : Point) : dot (scale s p) q = s * dot p q.
Proof. coords. ring. Qed.

Lemma dot_scale_r (s : R) (p q : Point) : dot p (scale s q) = s * dot p q.
Proof. coords. ring. Qed.

Lemma dot_comm (p q : Point) : dot p q = dot q p.
Proof. coords. ring. Qed.

Lemma scale_scale (s t : R) (p : Point) :
  scale s (scale t p) = scale (s * t) p.
Proof. coords. f_equal; ring. Qed.

Lemma scale_one (p : Point) : scale 1 p = p.
Proof. coords. f_equal; ring. Qed.

Lemma norm_scale_neg (p : Point) : norm (scale (-1) p) = norm p.
Proof. unfold norm. f_equal. coords. ring. Qed.

Lemma normalize_unit (p : Point) : 0 < norm p -> norm (normalize p) = 1.
Proof.
  intro H. apply norm_one_dot. unfold normalize.
  rewrite dot_scale_l, dot_scale_r, <- norm_sqr.
  field. lra.
Qed.

Lemma normalize_of_unit (p : Point) : norm p = 1 -> normalize p = p.
Proof. intro H. unfold normalize. rewrite H, Rinv_1. apply scale_one. Qed.

Lemma norm_pos_nonzero (p : Point) : p <> origin -> 0 < norm p.
Proof.
  intro H. apply norm_pos_dot.
  destruct (Rle_lt_dec (dot p p) 0) as [Hle | Hlt]; [ | exact Hlt ].
  exfalso. apply H. destruct p as [x y z]. unfold dot in Hle.
  cbn [px py pz] in Hle. unfold origin.
  assert (x = 0) by nra. assert (y = 0) by nra. assert (z = 0) by nra.
  now subst.
Qed.

Lemma sub_nonzero (p q : Point) : p <> q -> sub p q <> origin.
Proof.
  intros H E. apply H. destruct p, q. unfold sub, origin in E.
  cbn [px py pz] in E. injection E. intros. f_equal; lra.
Qed.

Lemma normalize_dot_l (p q : Point) :
  dot (normalize p) q = / norm p * dot p q.
Proof. unfold normalize. apply dot_scale_l. Qed.

(** Negation commutes with normalisation. *)
Lemma normalize_neg (p : Point) :
  scale (-1) (normalize p) = normalize (scale (-1) p).
Proof.
  unfold normalize. rewrite norm_scale_neg, !scale_scale.
  f_equal. ring.
Qed.

Lemma sub_as_neg (p q : Point) : scale (-1) (sub p q) = sub q p.
Proof. coords. f_equal; ring. Qed.

(** Cross products are orthogonal to their factors, and Lagrange's
    identity gives their length. *)
Lemma cross_dot_r (p q : Point) : dot (cross p q) q = 0.
Proof. coords. ring. Qed.

Lemma cross_dot_l (p q : Point) : dot (cross p q) p = 0.
Proof. coords. ring. Qed.

Lemma cross_lagrange (p q : Point) :
  dot (cross p q) (cross p q) = dot p p * dot q q - dot p q * dot p q.
Proof. coords. ring. Qed.

Lemma cross_cross (p q : Point) :
  cross (cross p q) q = sub (scale (dot p q) q) (scale (dot q q) p).
Proof. coords. f_equal; ring. Qed.

(** Bessel's inequality for an orthonormal pair. *)
Lemma bessel_pair (n c d : Point) :
  dot c c = 1 -> dot d d = 1 -> dot c d = 0 ->
  dot c n * dot c n + dot d n * dot d n <= dot n n.
Proof.
  intros Hc Hd Hcd.
  pose (e := sub n (add (scale (dot c n) c) (scale (dot d n) d))).
  assert (He : dot e e =
               dot n n - 2 * (dot c n * dot c n) - 2 * (dot d n * dot d n)
               + dot c n * dot c n * dot c c
               + dot d n * dot d n * dot d d
               + 2 * (dot c n * dot d n * dot c d)).
  { subst e. coords. ring. }
  pose proof (dot_self_nonneg e) as Hpos.
  rewrite He, Hc, Hd, Hcd in Hpos. lra.
Qed.

(** Comparing the distances from [c] to [a] and to [-a] is comparing
    [dot c a] with 0. *)
Lemma distance_sign (c a : Point) :
  distance c a <= distance c (scale (-1) a) <-> 0 <= dot c a.
Proof.
  assert (E1 : dot (sub c a) (sub c a) = dot c c - 2 * dot c a + dot a a)
    by (coords; ring).
  assert (E2 : dot (sub c (scale (-1) a)) (sub c (scale (-1) a)) =
               dot c c + 2 * dot c a + dot a a) by (coords; ring).
  unfold distance, norm. split; intro H.
  - apply sqrt_le_0 in H; try apply dot_self_nonneg.
    rewrite E1, E2 in H. lra.
  - apply sqrt_le_1; try apply dot_self_nonneg.
    rewrite E1, E2. lra.
Qed.

(** ** getSpanVectors *)

Section SpanVectors.

Variables normal c d : Point.
Hypothesis Hn : norm normal = 1.
Hypothesis Hc : norm c = 1.
Hypothesis Hd : norm d = 1.
Hypothesis Hcd : dot c d = 0.

Lemma firstCandidate_orth : dot (firstCandidate normal c d) normal = 0.
Proof.
  unfold firstCandidate.
  destruct (Rlt_dec _ _); apply cross_dot_r.
Qed.

Lemma firstCandidate_nonzero :
  0 < dot (firstCandidate normal c d) (firstCandidate normal c d).
Proof.
  apply norm_one_dot in Hn, Hc, Hd.
  unfold firstCandidate.
  destruct (Rlt_dec (norm (cross d normal)) 0.001) as [Hsmall | Hbig].
  - (* fallback: the length of (c x n) x n is that of c x n *)
    assert (Hsq : dot (cross d normal) (cross d normal) < 0.001 * 0.001).
    { rewrite <- norm_sqr.
      pose proof (norm_nonneg (cross d normal)). nra. }
    rewrite cross_lagrange in Hsq.
    rewrite cross_lagrange, cross_dot_r, cross_lagrange.
    pose proof (bessel_pair normal c d Hc Hd Hcd) as HB.
    rewrite Hn, Hc in *. rewrite Hd in Hsq. nra.
  - apply norm_pos_dot. lra.
Qed.

Lemma spanCandidates_sign :
  spanCandidates normal c d =
  (let a1 := firstCandidate normal c d in
   let a1 := if Rlt_dec (distance c (scale (-1) a1)) (distance c a1)
             then scale (-1) a1 else a1 in
   (a1, cross a1 normal)).
Proof. reflexivity. Qed.

Lemma spanCandidates_facts :
  let '(a1, b1) := spanCandidates normal c d in
  dot a1 normal = 0 /\ 0 < dot a1 a1 /\ b1 = cross a1 normal /\
  0 <= dot c a1.
Proof.
  rewrite spanCandidates_sign. cbv zeta.
  pose proof firstCandidate_orth as Ho.
  pose proof firstCandidate_nonzero as Hz.
  set (a0 := firstCandidate normal c d) in *.
  destruct (Rlt_dec (distance c (scale (-1) a0)) (distance c a0)) as [Hl | Hl].
  - repeat split.
    + rewrite dot_scale_l, Ho. ring.
    + rewrite dot_scale_l, dot_scale_r. lra.
    + apply distance_sign. rewrite scale_scale.
      replace (-1 * -1) with 1 by ring. rewrite scale_one. lra.
  - repeat split; try assumption.
    apply distance_sign. lra.
Qed.

End SpanVectors.

(** C7.  For a unit tangent and an orthonormal previous pair,
    [getSpanVectors] normalises two vectors that are not zero (so it
    returns, also when the tangent is parallel or anti-parallel to
    [prevB]), and the pair [(a, b)] it returns consists of unit vectors
    orthogonal to each other and to the tangent, [a] being no further from
    [prevA] than [-a] is.  When the tangent is [prevB] or [-prevB] the
    result is the one of the fall-back computation through [prevA]. *)
Theorem getSpanVectors_orthonormal (normal prevA prevB : Point) :
  norm normal = 1 -> norm prevA = 1 -> norm prevB = 1 ->
  dot prevA prevB = 0 ->
  (0 < norm (fst (spanCandidates normal prevA prevB)) /\
   0 < norm (snd (spanCandidates normal prevA prevB))) /\
  (let '(a, b) := getSpanVectors normal prevA prevB in
   norm a = 1 /\ norm b = 1 /\
   dot a b = 0 /\ dot a normal = 0 /\ dot b normal = 0 /\
   distance prevA a <= distance prevA (scale (-1) a)) /\
  (normal = prevB \/ normal = scale (-1) prevB ->
   fst (spanCandidates normal prevA prevB) =
     scale (-1) (cross (cross prevA normal) normal) /\
   getSpanVectors normal prevA prevB =
     (prevA, normalize (cross prevA normal))).
Proof.
  intros Hn Hc Hd Hcd.
  pose proof (spanCandidates_facts normal prevA prevB Hn Hc Hd Hcd) as HF.
  unfold getSpanVectors.
  destruct (spanCandidates normal prevA prevB) as [a1 b1] eqn:E.
  destruct HF as (Ho & Hz & Hb & Hs).
  assert (Hna : 0 < norm a1) by (apply norm_pos_dot; exact Hz).
  assert (Hbz : dot b1 b1 = dot a1 a1).
  { subst b1. rewrite cross_lagrange, Ho.
    apply norm_one_dot in Hn. rewrite Hn. ring. }
  assert (Hnb : 0 < norm b1) by (apply norm_pos_dot; lra).
  assert (Hia : 0 < / norm a1) by (apply Rinv_0_lt_compat; exact Hna).
  split; [ split; assumption | ].
  split.
  - cbn [fst snd].
    split; [ apply normalize_unit; exact Hna | ].
    split; [ apply normalize_unit; exact Hnb | ].
    split.
    { rewrite normalize_dot_l, dot_comm, normalize_dot_l.
      subst b1. rewrite cross_dot_l. ring. }
    split.
    { rewrite normalize_dot_l, Ho. ring. }
    split.
    { rewrite normalize_dot_l. subst b1. rewrite cross_dot_r. ring. }
    apply distance_sign. unfold normalize. rewrite dot_scale_r. nra.
  - intros Hpar.
    assert (Hdn : cross prevB normal = origin).
    { destruct Hpar as [-> | ->]; unfold origin; coords; f_equal; ring. }
    assert (Hcn : dot prevA normal = 0).
    { destruct Hpar as [-> | ->]; [ | rewrite dot_scale_r ]; lra. }
    assert (Hfc : firstCandidate normal prevA prevB =
                  cross (cross prevA normal) normal).
    { unfold firstCandidate. rewrite Hdn.
      destruct (Rlt_dec (norm origin) 0.001) as [ | Hno ]; [ reflexivity | ].
      exfalso. apply Hno. unfold norm, origin, dot. cbn [px py pz].
      replace (0 * 0 + 0 * 0 + 0 * 0) with 0 by ring.
      rewrite sqrt_0. lra. }
    assert (Hneg : cross (cross prevA normal) normal = scale (-1) prevA).
    { apply norm_one_dot in Hn.
      rewrite cross_cross, Hcn, Hn.
      clear. coords. f_equal; ring. }
    rewrite spanCandidates_sign in E. cbv zeta in E.
    rewrite Hfc, Hneg, scale_scale in E.
    replace (-1 * -1) with 1 in E by ring. rewrite scale_one in E.
    destruct (Rlt_dec (distance prevA prevA)
                      (distance prevA (scale (-1) prevA))) as [ | Hno ].
    + injection E as <- <-. cbn [fst].
      rewrite Hneg, scale_scale.
      replace (-1 * -1) with 1 by ring. rewrite scale_one.
      split; [ reflexivity | ].
      f_equal. unfold normalize. rewrite Hc, Rinv_1. apply scale_one.
    + exfalso. apply Hno.
      assert (H0 : distance prevA prevA = 0).
      { unfold distance, norm.
        replace (dot (sub prevA prevA) (sub prevA prevA)) with 0
          by (coords; ring).
        apply sqrt_0. }
      rewrite H0. apply norm_pos_dot.
      apply norm_one_dot in Hc.
      replace (dot (sub prevA (scale (-1) prevA))
                   (sub prevA (scale (-1) prevA)))
        with (4 * dot prevA prevA) by (coords; ring).
      lra.
Qed.

Lemma getSpanVectors_orthonormal_witness :
  (norm (mkPoint 0 1 0) = 1 /\ norm (mkPoint 0 0 1) = 1 /\
   norm (mkPoint 0 1 0) = 1 /\ dot (mkPoint 0 0 1) (mkPoint 0 1 0) = 0) /\
  getSpanVectors (mkPoint 0 1 0) (mkPoint 0 0 1) (mkPoint 0 1 0) =
  (mkPoint 0 0 1, normalize (cross (mkPoint 0 0 1) (mkPoint 0 1 0))).
Proof.
  assert (H1 : norm (mkPoint 0 1 0) = 1).
  { apply norm_one_dot. unfold dot. cbn [px py pz]. ring. }
  assert (H2 : norm (mkPoint 0 0 1) = 1).
  { apply norm_one_dot. unfold dot. cbn [px py pz]. ring. }
  assert (H3 : dot (mkPoint 0 0 1) (mkPoint 0 1 0) = 0).
  { unfold dot. cbn [px py pz]. ring. }
  split; [ repeat split; assumption | ].
  destruct (getSpanVectors_orthonormal (mkPoint 0 1 0) (mkPoint 0 0 1)
              (mkPoint 0 1 0) H1 H2 H1 H3) as (_ & _ & H).
  apply H. left. reflexivity.
Defined.

(** ** The faces *)

Lemma In_range (n x : Z) : In x (range n) <-> (0 <= x < n)%Z.
Proof.
  unfold range. rewrite in_map_iff. split.
  - intros (k & <- & Hk). apply in_seq in Hk. lia.
  - intros H. exists (Z.to_nat x). split; [ lia | ].
    apply in_seq. lia.
Qed.

Lemma length_range (n : Z) : length (range n) = Z.to_nat n.
Proof. unfold range. now rewrite length_map, length_seq. Qed.

Lemma rows4_entries (qs : list Quad) : rows4 (flat_map quadEntries qs) = qs.
Proof.
  induction qs as [ | [[[a b] c] d] qs IH ]; [ reflexivity | ].
  cbn [flat_map quadEntries app rows4]. now rewrite IH.
Qed.

Lemma length_entries (qs : list Quad) :
  length (flat_map quadEntries qs) = (length qs * 4)%nat.
Proof.
  induction qs as [ | [[[a b] c] d] qs IH ]; [ reflexivity | ].
  cbn [flat_map quadEntries app length]. rewrite IH. lia.
Qed.

Lemma reshape4_entries (qs : list Quad) :
  reshape4 (flat_map quadEntries qs) = Ok qs.
Proof.
  unfold reshape4. rewrite length_entries, Nat.div_mul by discriminate.
  now rewrite Nat.eqb_refl, rows4_entries.
Qed.

Lemma flat_map_map {A B C : Type} (f : B -> C) (g : A -> list B) l :
  map f (flat_map g l) = flat_map (fun x => map f (g x)) l.
Proof.
  induction l as [ | x l IH ]; [ reflexivity | ].
  cbn [flat_map]. now rewrite map_app, IH.
Qed.

Lemma flat_map_nested {A B C : Type} (f : B -> list C) (g : A -> list B) l :
  flat_map f (flat_map g l) = flat_map (fun x => flat_map f (g x)) l.
Proof.
  induction l as [ | x l IH ]; [ reflexivity | ].
  cbn [flat_map]. now rewrite flat_map_app, IH.
Qed.

Lemma flat_map_length_const {A B : Type} (f : A -> list B) (m : nat) l :
  (forall x, In x l -> length (f x) = m) ->
  length (flat_map f l) = (length l * m)%nat.
Proof.
  induction l as [ | x l IH ]; intros H; [ reflexivity | ].
  cbn [flat_map length]. rewrite length_app, IH, (H x).
  - lia.
  - now left.
  - intros y Hy. apply H. now right.
Qed.

(** The entries of [oneRound] offset by [k*vertex_num] are the entries of
    the quads of round [k]. *)
Lemma oneRound_offset (vertex_num k : Z) :
  map (fun val => (val + k * vertex_num)%Z) (oneRound vertex_num) =
  flat_map quadEntries (roundQuads vertex_num k).
Proof.
  unfold oneRound, roundQuads.
  rewrite map_app, flat_map_app, flat_map_map.
  cbn [flat_map map quadEntries app].
  f_equal.
  - induction (range (vertex_num - 1)) as [ | j l IH ]; [ reflexivity | ].
    cbn [flat_map map quadEntries app] in IH |- *. rewrite IH.
    repeat (f_equal; try lia).
Qed.

Lemma length_roundQuads (vertex_num k : Z) :
  (1 <= vertex_num)%Z ->
  length (roundQuads vertex_num k) = Z.to_nat vertex_num.
Proof.
  intro H. unfold roundQuads.
  rewrite length_app, length_map, length_range. cbn. lia.
Qed.

(** What [buildFaces] returns. *)
Lemma buildFaces_rounds (n_cylinders vertex_num : Z) :
  (2 <= n_cylinders)%Z ->
  buildFaces n_cylinders vertex_num =
  Ok (flat_map (roundQuads vertex_num) (range (n_cylinders - 1))).
Proof.
  intro Hn. unfold buildFaces.
  rewrite <- flat_map_concat_map.
  assert (E : flat_map
                (fun i => map (fun val => (val + i * vertex_num)%Z)
                              (oneRound vertex_num))
                (range (n_cylinders - 1)) =
              flat_map quadEntries
                (flat_map (roundQuads vertex_num) (range (n_cylinders - 1)))).
  { rewrite flat_map_nested. apply flat_map_ext.
    intro k. apply oneRound_offset. }
  rewrite E.
  destruct (range (n_cylinders - 1)) as [ | k0 l ] eqn:Er.
  - apply (f_equal (@length Z)) in Er. rewrite length_range in Er.
    cbn in Er. lia.
  - cbn [map]. apply reshape4_entries.
Qed.

Lemma roundQuads_below (n_cylinders vertex_num k : Z) (q : Quad) :
  (1 <= vertex_num)%Z -> (0 <= k < n_cylinders - 1)%Z ->
  In q (roundQuads vertex_num k) ->
  quadBelow (n_cylinders * vertex_num) q.
Proof.
  intros Hv Hk Hq. unfold roundQuads in Hq.
  apply in_app_or in Hq. destruct Hq as [Hq | [<- | []]].
  - apply in_map_iff in Hq. destruct Hq as (j & <- & Hj).
    apply In_range in Hj. unfold quadBelow. nia.
  - unfold quadBelow. nia.
Qed.

(** C4.  For at least two rings and [vertexNum >= 1], the topology
    builder returns, round after round for [k] in [[0, ringCount-1)] (so
    for every [k] in [[0, ringCount-2)] and for [k = ringCount-2]), the
    [vertexNum] quads [(j, j+1, vertexNum+j+1, vertexNum+j)] for [j] in
    [[0, vertexNum-1)] followed by the closing quad
    [(vertexNum-1, 0, vertexNum, 2*vertexNum-1)], every index offset by
    [k*vertexNum]; the face list has [(ringCount-1)*vertexNum] quads. *)
Theorem buildFaces_topology (ringCount vertexNum : Z) :
  (2 <= ringCount)%Z -> (1 <= vertexNum)%Z ->
  exists quads,
    buildFaces ringCount vertexNum = Ok quads /\
    quads = flat_map (roundQuads vertexNum) (range (ringCount - 1)) /\
    (forall k, (0 <= k < ringCount - 1)%Z ->
       firstn (Z.to_nat vertexNum)
              (skipn (Z.to_nat (k * vertexNum)) quads) =
       roundQuads vertexNum k) /\
    Z.of_nat (length quads) = ((ringCount - 1) * vertexNum)%Z.
Proof.
  intros Hn Hv. eexists. split; [ apply buildFaces_rounds; exact Hn | ].
  split; [ reflexivity | ].
  split.
  - intros k Hk.
    assert (G : forall m s : nat,
               (Z.of_nat s <= k < Z.of_nat s + Z.of_nat m)%Z ->
               firstn (Z.to_nat vertexNum)
                 (skipn (Z.to_nat ((k - Z.of_nat s) * vertexNum))
                    (flat_map (roundQuads vertexNum)
                       (map Z.of_nat (seq s m)))) =
               roundQuads vertexNum k).
    { induction m as [ | m IH ]; intros s Hs; [ lia | ].
      cbn [seq map flat_map].
      destruct (Z.eq_dec k (Z.of_nat s)) as [-> | Hne].
      - replace ((Z.of_nat s - Z.of_nat s) * vertexNum)%Z with 0%Z by ring.
        cbn [Z.to_nat skipn].
        rewrite firstn_app, length_roundQuads by exact Hv.
        rewrite Nat.sub_diag, firstn_O, app_nil_r.
        apply firstn_all2. rewrite length_roundQuads by exact Hv. lia.
      - rewrite skipn_app, length_roundQuads by exact Hv.
        rewrite (skipn_all2 (roundQuads vertexNum (Z.of_nat s)))
          by (rewrite length_roundQuads by exact Hv; nia).
        cbn [app].
        replace (Z.to_nat ((k - Z.of_nat s) * vertexNum) - Z.to_nat vertexNum)%nat
          with (Z.to_nat ((k - Z.of_nat (S s)) * vertexNum)) by nia.
        apply IH. lia. }
    specialize (G (Z.to_nat (ringCount - 1)) 0%nat).
    cbn [Z.of_nat] in G. rewrite Z.sub_0_r in G. apply G. lia.
  - rewrite (flat_map_length_const _ (Z.to_nat vertexNum)).
    + rewrite length_range. nia.
    + intros k _. apply length_roundQuads. exact Hv.
Qed.

Lemma buildFaces_topology_witness :
  ((2 <= 3)%Z /\ (1 <= 4)%Z) /\
  exists quads,
    buildFaces 3 4 = Ok quads /\
    quads = [(0, 1, 5, 4); (1, 2, 6, 5); (2, 3, 7, 6); (3, 0, 4, 7);
             (4, 5, 9, 8); (5, 6, 10, 9); (6, 7, 11, 10); (7, 4, 8, 11)]%Z.
Proof.
  split; [ lia | ].
  destruct (buildFaces_topology 3 4) as (quads & E & Hq & _); [ lia | lia | ].
  exists quads. split; [ exact E | ]. rewrite Hq. reflexivity.
Defined.

(** X1.  Every index of every quad that the topology builder returns is
    at least 0 and below the product [ringCount*vertexNum], for every
    [vertexNum >= 1] and at least two rings. *)
Theorem buildFaces_indices_in_range (ringCount vertexNum : Z) :
  (2 <= ringCount)%Z -> (1 <= vertexNum)%Z ->
  exists quads,
    buildFaces ringCount vertexNum = Ok quads /\
    Forall (quadBelow (ringCount * vertexNum)) quads.
Proof.
  intros Hn Hv. eexists. split; [ apply buildFaces_rounds; exact Hn | ].
  apply Forall_forall. intros q Hq.
  apply in_flat_map in Hq. destruct Hq as (k & Hk & Hq).
  apply In_range in Hk.
  now apply (roundQuads_below ringCount vertexNum k).
Qed.

Lemma buildFaces_indices_in_range_witness :
  ((2 <= 3)%Z /\ (1 <= 4)%Z) /\
  exists quads,
    buildFaces 3 4 = Ok quads /\ Forall (quadBelow (3 * 4)) quads.
Proof.
  split; [ lia | ].
  apply (buildFaces_indices_in_range 3 4); lia.
Defined.

(** ** The assembly of the rings *)

Section AssemblyFacts.

Variable pp : list Point.
Variable radius : list R.
Variables angle_cos angle_sin : list R.
Variable bufdist : R.
Variable lclosed : bool.
Variable normals : list Point.

Local Abbreviation cyl := (cylinder pp radius angle_cos angle_sin bufdist normals).
Local Abbreviation jnt := (joint pp radius angle_cos angle_sin bufdist normals).
Local Abbreviation swp :=
  (sweep pp radius angle_cos angle_sin bufdist lclosed normals).
Local Abbreviation breaks i := (negb lclosed && Nat.eqb i (length pp - 2)).

(** The two rings of the cylinder of line piece [i], sampled with frame
    [f]. *)
Local Abbreviation cylRings i f :=
  [tubeRing f (getCircle angle_cos angle_sin (fst f) (snd f))
            (item 0 radius i)
            (add (item origin pp i) (scale bufdist (item origin normals i)));
   tubeRing f (getCircle angle_cos angle_sin (fst f) (snd f))
            (item 0 radius (i + 1))
            (sub (item origin pp (i + 1))
                 (scale bufdist (item origin normals i)))].

(** The ring of the joint after line piece [i], sampled with frame [f]. *)
Local Abbreviation jointRing i f :=
  (tubeRing f (getCircle angle_cos angle_sin (fst f) (snd f))
            (item 0 radius (i + 1)) (jointCenter pp bufdist normals i)).

Lemma cylinder_unfold (i : nat) (st : Asm) :
  let f := getSpanVectors (item origin normals i) (asm_a st) (asm_b st) in
  cyl i st =
  mkAsm (fst f) (snd f) (getCircle angle_cos angle_sin (fst f) (snd f))
        (asm_rings st ++ cylRings i f).
Proof.
  unfold cylinder. cbv zeta.
  destruct (getSpanVectors _ _ _) as [a b]. reflexivity.
Qed.

Lemma joint_unfold (i : nat) (st : Asm) :
  let f := getSpanVectors (jointNormal normals i) (asm_a st) (asm_b st) in
  jnt i st =
  mkAsm (fst f) (snd f) (getCircle angle_cos angle_sin (fst f) (snd f))
        (asm_rings st ++ [jointRing i f]).
Proof.
  unfold joint. cbv zeta.
  destruct (getSpanVectors _ _ _) as [a b]. reflexivity.
Qed.

Lemma closingRing_unfold (st : Asm) :
  let f := getSpanVectors (item_last origin normals) (asm_a st) (asm_b st) in
  let circm := getCircle angle_cos angle_sin (fst f) (snd f) in
  closingRing pp radius angle_cos angle_sin bufdist normals st =
  mkAsm (fst f) (snd f) circm
        (asm_rings st ++
         [tubeRing f circm (item 0 radius 0)
                   (add (item_last origin pp)
                        (scale bufdist (item_last origin normals)))]).
Proof.
  unfold closingRing. cbv zeta.
  destruct (getSpanVectors _ _ _) as [a b]. reflexivity.
Qed.

Lemma sweep_cons (i : nat) (rest : list nat) (st : Asm) :
  swp (i :: rest) st =
  if breaks i then cyl i st else swp rest (jnt i (cyl i st)).
Proof. reflexivity. Qed.

Lemma sweep_app (l1 l2 : list nat) (st : Asm) :
  (forall x, In x l1 -> breaks x = false) ->
  swp (l1 ++ l2) st = swp l2 (swp l1 st).
Proof.
  revert st. induction l1 as [ | i l1 IH ]; intros st H; [ reflexivity | ].
  cbn [app]. rewrite !sweep_cons, (H i) by now left.
  apply IH. intros x Hx. apply H. now right.
Qed.

Lemma sweep_rings_grow (l : list nat) (st : Asm) :
  exists post, asm_rings (swp l st) = asm_rings st ++ post.
Proof.
  revert st. induction l as [ | i l IH ]; intro st.
  - exists []. now rewrite app_nil_r.
  - rewrite sweep_cons. destruct (breaks i).
    + rewrite cylinder_unfold. cbn [asm_rings]. eauto.
    + destruct (IH (jnt i (cyl i st))) as (post & E). rewrite E.
      rewrite joint_unfold, cylinder_unfold. cbn [asm_rings].
      rewrite <- !app_assoc. eauto.
Qed.

Lemma sweep_rings_length (l : list nat) (st : Asm) :
  (forall x, In x l -> breaks x = false) ->
  length (asm_rings (swp l st)) = (length (asm_rings st) + 3 * length l)%nat.
Proof.
  revert st. induction l as [ | i l IH ]; intros st H; [ cbn; lia | ].
  rewrite sweep_cons, (H i) by now left.
  rewrite IH by (intros x Hx; apply H; now right).
  rewrite joint_unfold, cylinder_unfold. cbn [asm_rings].
  rewrite !length_app. cbn [length]. lia.
Qed.

Lemma breaks_before (i x : nat) :
  (i < length pp - 1)%nat -> In x (seq 0 i) -> breaks x = false.
Proof.
  intros Hi Hx. apply in_seq in Hx.
  apply andb_false_iff. right. apply Nat.eqb_neq. lia.
Qed.

(** The state in which line piece [i] is entered. *)
Local Abbreviation entering st0 i := (swp (seq 0 i) st0).

Lemma entering_length (st0 : Asm) (i : nat) :
  (i < length pp - 1)%nat ->
  length (asm_rings (entering st0 i)) = (length (asm_rings st0) + 3 * i)%nat.
Proof.
  intro Hi.
  rewrite sweep_rings_length, length_seq; [ reflexivity | ].
  intros x. now apply breaks_before.
Qed.

(** The sweep, cut at line piece [i]. *)
Lemma sweep_at (st0 : Asm) (i : nat) :
  (i < length pp - 1)%nat ->
  swp (seq 0 (length pp - 1)) st0 =
  if breaks i then cyl i (entering st0 i)
  else swp (seq (S i) (length pp - 2 - i)) (jnt i (cyl i (entering st0 i))).
Proof.
  intro Hi.
  replace (length pp - 1)%nat with (i + S (length pp - 2 - i))%nat by lia.
  rewrite seq_app, sweep_app by (intro x; apply breaks_before; lia).
  cbn [seq Nat.add]. rewrite sweep_cons. reflexivity.
Qed.

(** A cap is added without touching frame and circle. *)
Lemma fold_store (f : Asm -> Z -> Ring) (js : list Z) (st : Asm) :
  (forall s r j, f (store s r) j = f s j) ->
  fold_left (fun s j => store s (f s j)) js st =
  mkAsm (asm_a st) (asm_b st) (asm_circm st)
        (asm_rings st ++ map (f st) js).
Proof.
  intro Hf. revert st. induction js as [ | j js IH ]; intro st.
  - cbn. rewrite app_nil_r. now destruct st.
  - cbn [fold_left map]. rewrite IH. cbn [store asm_a asm_b asm_circm asm_rings].
    rewrite <- app_assoc. cbn [app]. do 3 f_equal.
    apply map_ext. intro k. apply Hf.
Qed.

Local Abbreviation st0 := (initialState angle_cos angle_sin normals).
Local Abbreviation startCap :=
  (map (startCapRing pp radius bufdist normals st0) [5; 4; 3; 2; 1]%Z).
Local Abbreviation endCap st :=
  (map (endCapRing pp radius bufdist normals st) [0; 1; 2; 3; 4; 5]%Z).

(** The state in which the sweep starts. *)
Local Abbreviation stS :=
  (mkAsm (asm_a st0) (asm_b st0) (asm_circm st0)
         (if lclosed then [] else startCap)).

(** What ends the tube. *)
Local Abbreviation finish st :=
  (if lclosed
   then closingRing pp radius angle_cos angle_sin bufdist normals st
   else mkAsm (asm_a st) (asm_b st) (asm_circm st)
              (asm_rings st ++ endCap st)).

Lemma initialState_unfold :
  let f := getSpanVectors (item origin normals 0)
                          (mkPoint 0 0 1) (mkPoint 0 1 0) in
  st0 = mkAsm (fst f) (snd f)
              (getCircle angle_cos angle_sin (fst f) (snd f)) [].
Proof.
  unfold initialState. cbv zeta.
  destruct (getSpanVectors _ _ _) as [a b]. reflexivity.
Qed.

Lemma assemble_unfold :
  assemble pp radius angle_cos angle_sin bufdist lclosed normals =
  asm_rings (finish (swp (seq 0 (length pp - 1)) stS)).
Proof.
  unfold assemble. cbv zeta.
  destruct lclosed; cbn [negb].
  - rewrite initialState_unfold. reflexivity.
  - rewrite !fold_store by reflexivity.
    rewrite initialState_unfold. reflexivity.
Qed.

Lemma finish_grow (st : Asm) :
  exists post, asm_rings (finish st) = asm_rings st ++ post.
Proof.
  destruct lclosed.
  - rewrite closingRing_unfold. cbn [asm_rings]. eauto.
  - cbn [asm_rings]. eauto.
Qed.

(** The rings start with the start cap, if there is one. *)
Lemma assemble_start :
  exists rest,
    assemble pp radius angle_cos angle_sin bufdist lclosed normals =
    (if lclosed then [] else startCap) ++ rest.
Proof.
  rewrite assemble_unfold.
  destruct (finish_grow (swp (seq 0 (length pp - 1)) stS)) as (post & ->).
  destruct (sweep_rings_grow (seq 0 (length pp - 1)) stS) as (mid & ->).
  cbn [asm_rings]. rewrite <- app_assoc. eauto.
Qed.

(** The rings around a joint: the line piece [i] is not the one at which
    the loop is left. *)
Lemma assemble_at_joint (i : nat) :
  (i < length pp - 1)%nat -> breaks i = false ->
  let st := entering stS i in
  let f := getSpanVectors (item origin normals i) (asm_a st) (asm_b st) in
  let f' := getSpanVectors (jointNormal normals i) (fst f) (snd f) in
  exists post,
    length (asm_rings st) =
      ((if lclosed then 0 else 5) + 3 * i)%nat /\
    assemble pp radius angle_cos angle_sin bufdist lclosed normals =
    asm_rings st ++ cylRings i f ++ [jointRing i f'] ++ post.
Proof.
  intros Hi Hb. cbv zeta.
  rewrite assemble_unfold, (sweep_at stS i Hi), Hb.
  destruct (finish_grow (swp (seq (S i) (length pp - 2 - i))
                             (jnt i (cyl i (entering stS i)))))
    as (post & ->).
  destruct (sweep_rings_grow (seq (S i) (length pp - 2 - i))
                             (jnt i (cyl i (entering stS i))))
    as (mid & ->).
  rewrite joint_unfold, cylinder_unfold. cbn [asm_rings asm_a asm_b].
  exists (mid ++ post). split.
  - rewrite entering_length by exact Hi. cbn [asm_rings].
    destruct lclosed; reflexivity.
  - now rewrite <- !app_assoc.
Qed.

(** The end of an open line: the cylinder of the last line piece is
    followed by the end cap, which reuses its circle. *)
Lemma assemble_open_end :
  lclosed = false -> (2 <= length pp)%nat ->
  let st := entering stS (length pp - 2) in
  let f := getSpanVectors (item origin normals (length pp - 2))
                          (asm_a st) (asm_b st) in
  let stE := mkAsm (fst f) (snd f)
                   (getCircle angle_cos angle_sin (fst f) (snd f)) [] in
  length (asm_rings st) = (5 + 3 * (length pp - 2))%nat /\
  assemble pp radius angle_cos angle_sin bufdist lclosed normals =
  asm_rings st ++ cylRings (length pp - 2) f ++ endCap stE.
Proof.
  intros Ho HN. cbv zeta.
  assert (Hi : (length pp - 2 < length pp - 1)%nat) by lia.
  split.
  - rewrite entering_length by exact Hi. cbn [asm_rings].
    now rewrite Ho.
  - rewrite assemble_unfold, (sweep_at stS _ Hi).
    rewrite Ho, Nat.eqb_refl. cbn [negb andb].
    rewrite cylinder_unfold. cbn [asm_rings asm_a asm_b asm_circm].
    now rewrite <- app_assoc.
Qed.

(** The end of a closed line: the joint after the last line piece is
    followed by one more ring. *)
Lemma assemble_closed_end :
  lclosed = true -> (2 <= length pp)%nat ->
  let i := (length pp - 2)%nat in
  let st := entering stS i in
  let f := getSpanVectors (item origin normals i) (asm_a st) (asm_b st) in
  let f' := getSpanVectors (jointNormal normals i) (fst f) (snd f) in
  let f'' := getSpanVectors (item_last origin normals) (fst f') (snd f') in
  length (asm_rings st) = (3 * (length pp - 2))%nat /\
  assemble pp radius angle_cos angle_sin bufdist lclosed normals =
  asm_rings st ++ cylRings i f ++
  [jointRing i f';
   tubeRing f'' (getCircle angle_cos angle_sin (fst f'') (snd f''))
            (item 0 radius 0)
            (add (item_last origin pp)
                 (scale bufdist (item_last origin normals)))].
Proof.
  intros Hc HN. cbv zeta.
  assert (Hi : (length pp - 2 < length pp - 1)%nat) by lia.
  split.
  - rewrite entering_length by exact Hi. cbn [asm_rings].
    now rewrite Hc.
  - rewrite assemble_unfold, (sweep_at stS _ Hi).
    replace (length pp - 2 - (length pp - 2))%nat with 0%nat by lia.
    rewrite Hc. cbn [negb andb seq sweep].
    rewrite closingRing_unfold, joint_unfold, cylinder_unfold.
    cbn [asm_rings asm_a asm_b asm_circm].
    now rewrite <- !app_assoc.
Qed.

End AssemblyFacts.

(** ** Every ring has one vertex per angle *)

Lemma length_getCircle (angle_cos angle_sin : list R) (a b : Point) :
  length (getCircle angle_cos angle_sin a b) =
  length (combine angle_cos angle_sin).
Proof. unfold getCircle. apply length_map. Qed.

Lemma length_place (s : R) (circm : list Point) (c : Point) :
  length (place s circm c) = length circm.
Proof. unfold place. apply length_map. Qed.

Section RingSizes.

Variable pp : list Point.
Variable radius : list R.
Variables angle_cos angle_sin : list R.
Variable bufdist : R.
Variable lclosed : bool.
Variable normals : list Point.

Local Abbreviation L := (length (combine angle_cos angle_sin)).
Local Abbreviation sized st :=
  (length (asm_circm st) = L /\
   Forall (fun r => length (ring_vertices r) = L) (asm_rings st)).

Lemma sized_cylinder (i : nat) (st : Asm) :
  sized st ->
  sized (cylinder pp radius angle_cos angle_sin bufdist normals i st).
Proof.
  intros [Hc Hr]. rewrite cylinder_unfold. cbn [asm_circm asm_rings].
  split; [ apply length_getCircle | ].
  apply Forall_app. split; [ exact Hr | ].
  repeat constructor; cbn [tubeRing ring_vertices];
    now rewrite length_place, length_getCircle.
Qed.

Lemma sized_joint (i : nat) (st : Asm) :
  sized st ->
  sized (joint pp radius angle_cos angle_sin bufdist normals i st).
Proof.
  intros [Hc Hr]. rewrite joint_unfold. cbn [asm_circm asm_rings].
  split; [ apply length_getCircle | ].
  apply Forall_app. split; [ exact Hr | ].
  repeat constructor; cbn [tubeRing ring_vertices];
    now rewrite length_place, length_getCircle.
Qed.

Lemma sized_sweep (l : list nat) (st : Asm) :
  sized st ->
  sized (sweep pp radius angle_cos angle_sin bufdist lclosed normals l st).
Proof.
  revert st. induction l as [ | i l IH ]; intros st H; [ exact H | ].
  rewrite sweep_cons. destruct (negb lclosed && Nat.eqb i (length pp - 2)).
  - now apply sized_cylinder.
  - apply IH. now apply sized_joint, sized_cylinder.
Qed.

Lemma sized_assemble :
  Forall (fun r => length (ring_vertices r) = L)
         (assemble pp radius angle_cos angle_sin bufdist lclosed normals).
Proof.
  rewrite assemble_unfold.
  match goal with
  | |- context [sweep _ _ _ _ _ _ _ ?l ?s] =>
      assert (H : sized (sweep pp radius angle_cos angle_sin bufdist lclosed
                               normals l s))
  end.
  { apply sized_sweep. rewrite initialState_unfold.
    cbn [asm_a asm_b asm_circm asm_rings].
    split; [ apply length_getCircle | ].
    destruct lclosed; [ constructor | ].
    apply Forall_forall. intros r Hr.
    apply in_map_iff in Hr. destruct Hr as (j & <- & _).
    unfold startCapRing, capRing. cbn [ring_vertices asm_circm].
    now rewrite length_place, length_getCircle. }
  destruct H as [Hc Hr].
  destruct lclosed.
  - rewrite closingRing_unfold. cbn [asm_rings].
    apply Forall_app. split; [ exact Hr | ].
    repeat constructor. cbn [tubeRing ring_vertices].
    now rewrite length_place, length_getCircle.
  - cbn [asm_rings]. apply Forall_app. split; [ exact Hr | ].
    apply Forall_forall. intros r Hin.
    apply in_map_iff in Hin. destruct Hin as (j & <- & _).
    unfold endCapRing, capRing. cbn [ring_vertices].
    now rewrite length_place.
Qed.

End RingSizes.

Lemma length_concat_sized {A : Type} (f : A -> list Point) (n : nat) l :
  Forall (fun r => length (f r) = n) l ->
  length (concat (map f l)) = (length l * n)%nat.
Proof.
  induction 1 as [ | r l Hr Hl IH ]; [ reflexivity | ].
  cbn [map concat length]. rewrite length_app, IH, Hr. lia.
Qed.

(** ** The angles *)

Lemma ceilR_spec (x : R) (z : Z) : IZR z - 1 < x <= IZR z -> ceilR x = z.
Proof.
  intros [Hl Hu]. unfold ceilR.
  assert (E : (1 - z)%Z = up (- x)).
  { apply tech_up; rewrite minus_IZR; lra. }
  lia.
Qed.

Lemma length_arange (start stop step : R) :
  length (arange start stop step) = arange_len start stop step.
Proof. unfold arange. now rewrite length_map, length_seq. Qed.

Lemma circleAngles_ok (vertex_num : Z) :
  vertex_num <> 0%Z -> circleAngles vertex_num = Ok (tubeAngles vertex_num).
Proof.
  intro H. unfold circleAngles, float_div_int.
  apply Z.eqb_neq in H. now rewrite H.
Qed.

(** The quotient whose ceiling is the number of angles. *)
Lemma angle_quotient (v : R) :
  v <> 0 ->
  (PI * 2 - 0.0001 - 0) / (PI * 2 / v) = v - v * (0.0001 / (2 * PI)).
Proof.
  intro Hv. pose proof PI_neq0. field. split; assumption.
Qed.

(** As long as [vertex_num * 0.0001 < 2*pi] (that is, up to 62831) there
    are [vertex_num] angles. *)
Lemma tubeAngles_length (vertex_num : Z) :
  (1 <= vertex_num)%Z -> IZR vertex_num * 0.0001 < 2 * PI ->
  length (tubeAngles vertex_num) = Z.to_nat vertex_num.
Proof.
  intros Hv Hsmall. unfold tubeAngles.
  rewrite length_arange. unfold arange_len. f_equal.
  apply ceilR_spec.
  assert (Hr : 1 <= IZR vertex_num) by now apply IZR_le.
  rewrite angle_quotient by lra.
  pose proof PI_RGT_0 as Hpi.
  set (q := 0.0001 / (2 * PI)).
  assert (Hq : q * (2 * PI) = 0.0001) by (subst q; field; lra).
  assert (Hq0 : 0 < q).
  { subst q. apply Rdiv_lt_0_compat; lra. }
  assert (Hlt : IZR vertex_num * q < 1).
  { apply Rmult_lt_reg_r with (2 * PI); [ lra | ].
    rewrite Rmult_assoc, Hq. lra. }
  nra.
Qed.

(** For [vertex_num = 80000] there are only 79999 angles. *)
Lemma tubeAngles_length_80000 :
  length (tubeAngles 80000) = Z.to_nat 79999.
Proof.
  unfold tubeAngles. rewrite length_arange. unfold arange_len.
  rewrite (ceilR_spec _ 79999); [ reflexivity | ].
  rewrite angle_quotient by lra.
  pose proof PI_4 as Hu. pose proof PI2_1 as Hl.
  set (q := 0.0001 / (2 * PI)).
  assert (Hq : q * (2 * PI) = 0.0001) by (subst q; field; lra).
  assert (H1 : 1 <= 80000 * q).
  { apply Rmult_le_reg_r with (2 * PI); [ lra | ].
    rewrite Rmult_assoc, Hq. lra. }
  assert (H2 : 80000 * q < 2).
  { apply Rmult_lt_reg_r with (2 * PI); [ lra | ].
    rewrite Rmult_assoc, Hq. lra. }
  lra.
Qed.

Lemma length_cos_sin (angles : list R) :
  length (combine (map cos angles) (map sin angles)) = length angles.
Proof. rewrite length_combine, !length_map. apply Nat.min_id. Qed.

(** ** Validation of the input *)

Lemma length_map2_shift {A B : Type} (f : A -> A -> B) (x : A) (l : list A) :
  length (map2 f l (removelast (x :: l))) = length l.
Proof.
  revert x. induction l as [ | y l IH ]; intro x; [ reflexivity | ].
  change (removelast (x :: y :: l)) with (x :: removelast (y :: l)).
  cbn [map2 length]. now rewrite IH.
Qed.

Lemma nth_map2_shift {A B : Type} (f : A -> A -> B) (x : A) (l : list A)
    (i : nat) (d : B) (d1 : A) :
  (i < length l)%nat ->
  nth i (map2 f l (removelast (x :: l))) d =
  f (nth i l d1) (nth i (x :: l) d1).
Proof.
  revert x i. induction l as [ | y l IH ]; intros x i Hi; [ cbn in Hi; lia | ].
  change (removelast (x :: y :: l)) with (x :: removelast (y :: l)).
  cbn [map2].
  destruct i as [ | i ]; [ reflexivity | ].
  cbn [nth]. rewrite (IH y i) by (cbn in Hi; lia). reflexivity.
Qed.

Lemma length_lineDists (pp : list Point) :
  length (lineDists pp) = (length pp - 1)%nat.
Proof.
  unfold lineDists. destruct pp as [ | x l ]; [ reflexivity | ].
  cbn [tl]. rewrite length_map2_shift. cbn. lia.
Qed.

Lemma process_radius_ok (radius : radius_arg) (n : nat) :
  radiusOk radius n ->
  exists rad, process_radius radius n = Ok rad /\ length rad = n.
Proof.
  destruct radius as [r | rs]; cbn [radiusOk process_radius].
  - intros _. eexists. split; [ reflexivity | ].
    now rewrite length_map, repeat_length.
  - intros <-. exists rs. now rewrite Nat.eqb_refl.
Qed.

Lemma bufferDistance_ok (rad : list R) (pp : list Point) :
  (2 <= length pp)%nat -> length rad = length pp ->
  exists bufdist, bufferDistance rad pp = Ok bufdist.
Proof.
  intros HN Hr. unfold bufferDistance.
  destruct rad as [ | r rad ]; [ cbn in Hr; lia | ].
  pose proof (length_lineDists pp) as Hd.
  destruct (lineDists pp) as [ | d ds ]; [ cbn in Hd; lia | ].
  cbn. eauto.
Qed.

Lemma bufferDistance_short (rad : list R) (pp : list Point) :
  (length pp < 2)%nat -> bufferDistance rad pp = Raise ValueError.
Proof.
  intros HN. unfold bufferDistance.
  destruct rad as [ | r rad ]; [ reflexivity | ].
  pose proof (length_lineDists pp) as Hd.
  destruct (lineDists pp) as [ | d ds ]; [ reflexivity | ].
  cbn in Hd. lia.
Qed.

(** With at least two points, a radius that fits and a [vertex_num] that
    is not 0, the rings are assembled. *)
Lemma lineToMesh_rings_ok (pp : list Point) (radius : radius_arg)
    (vertex_num : Z) :
  (2 <= length pp)%nat -> vertex_num <> 0%Z ->
  radiusOk radius (length pp) ->
  exists rad bufdist,
    process_radius radius (length pp) = Ok rad /\
    length rad = length pp /\
    bufferDistance rad pp = Ok bufdist /\
    lineToMesh_rings pp radius vertex_num =
    Ok (assemble pp rad (map cos (tubeAngles vertex_num))
                 (map sin (tubeAngles vertex_num)) bufdist
                 (isClosed pp) (lineNormals pp)).
Proof.
  intros HN Hv Hr.
  destruct (process_radius_ok radius (length pp) Hr) as (rad & Erad & Hlen).
  destruct (bufferDistance_ok rad pp HN Hlen) as (bufdist & Ebuf).
  exists rad, bufdist. repeat split; try assumption.
  unfold lineToMesh_rings.
  rewrite Erad. cbn [bind]. rewrite (circleAngles_ok _ Hv). cbn [bind].
  rewrite Ebuf. reflexivity.
Qed.

(** ** Number of rings, of vertices and of faces *)

Lemma assemble_length (pp : list Point) (rad angle_cos angle_sin : list R)
    (bufdist : R) (lclosed : bool) (normals : list Point) :
  (2 <= length pp)%nat ->
  length (assemble pp rad angle_cos angle_sin bufdist lclosed normals) =
  if lclosed then (2 * (length pp - 1) + (length pp - 1) + 1)%nat
  else (5 + 2 * (length pp - 1) + (length pp - 2) + 6)%nat.
Proof.
  intro HN. destruct lclosed.
  - destruct (assemble_closed_end pp rad angle_cos angle_sin bufdist true
                normals eq_refl HN) as [Hl ->].
    rewrite !length_app, Hl. cbn [length]. lia.
  - destruct (assemble_open_end pp rad angle_cos angle_sin bufdist false
                normals eq_refl HN) as [Hl ->].
    rewrite !length_app, Hl. cbn [length map]. lia.
Qed.

(** With at least two points, a radius that fits and [vertex_num >= 1],
    [lineToMesh] returns a mesh: so many rings, one vertex per ring and
    angle, one quad per [vertex_num] and pair of consecutive rings. *)
Lemma lineToMesh_counts (pp : list Point) (radius : radius_arg)
    (vertex_num : Z) :
  (2 <= length pp)%nat -> (1 <= vertex_num)%Z ->
  radiusOk radius (length pp) ->
  exists rings m,
    lineToMesh_rings pp radius vertex_num = Ok rings /\
    lineToMesh pp radius vertex_num = Ok m /\
    length rings =
      (if isClosed pp then (2 * (length pp - 1) + (length pp - 1) + 1)%nat
       else (5 + 2 * (length pp - 1) + (length pp - 2) + 6)%nat) /\
    length (vertices m) =
      (length rings * length (tubeAngles vertex_num))%nat /\
    faces m =
      flat_map (roundQuads vertex_num)
               (range (Z.of_nat (length rings) - 1)) /\
    Z.of_nat (length (faces m)) =
      ((Z.of_nat (length rings) - 1) * vertex_num)%Z.
Proof.
  intros HN Hv Hr.
  destruct (lineToMesh_rings_ok pp radius vertex_num HN ltac:(lia) Hr)
    as (rad & bufdist & _ & _ & _ & E).
  set (rings := assemble _ _ _ _ _ _ _) in E.
  assert (Hlen : length rings =
                 if isClosed pp
                 then (2 * (length pp - 1) + (length pp - 1) + 1)%nat
                 else (5 + 2 * (length pp - 1) + (length pp - 2) + 6)%nat)
    by (apply assemble_length; exact HN).
  assert (H2 : (2 <= Z.of_nat (length rings))%Z).
  { rewrite Hlen. destruct (isClosed pp); lia. }
  exists rings. eexists. split; [ exact E | ].
  split.
  { unfold lineToMesh. rewrite E. cbn [bind].
    rewrite (buildFaces_rounds _ vertex_num H2). cbn [bind]. reflexivity. }
  cbn [vertices faces].
  split; [ exact Hlen | ].
  split.
  { rewrite (length_concat_sized ring_vertices
               (length (tubeAngles vertex_num))); [ reflexivity | ].
    rewrite <- (length_cos_sin (tubeAngles vertex_num)).
    apply sized_assemble. }
  split; [ reflexivity | ].
  rewrite (flat_map_length_const _ (Z.to_nat vertex_num)).
  - rewrite length_range. nia.
  - intros k _. apply length_roundQuads. exact Hv.
Qed.

Lemma shortLine_open : isClosed shortLine = false.
Proof.
  unfold isClosed, shortLine, item, item_last, eqb. cbn [length Nat.sub nth].
  destruct (Point_eq_dec origin unitX) as [E | ]; [ | reflexivity ].
  exfalso. injection E. lra.
Qed.

(** C1, at [vertex_num = 80000].  For the open line from (0,0,0) to
    (1,0,0) with radius 1, [lineToMesh] returns a mesh of 13 rings, but
    [np.arange] yields only 79999 angles: the mesh has 13 * 79999
    vertices, not 13 * 80000, while it has 12 * 80000 quads. *)
Theorem lineToMesh_80000_vertices :
  exists rings m,
    lineToMesh_rings shortLine (RScalar 1) 80000 = Ok rings /\
    lineToMesh shortLine (RScalar 1) 80000 = Ok m /\
    length rings = 13%nat /\
    Z.of_nat (length (vertices m)) = (13 * 79999)%Z /\
    Z.of_nat (length (vertices m)) <> (13 * 80000)%Z /\
    Z.of_nat (length (faces m)) = (12 * 80000)%Z.
Proof.
  destruct (lineToMesh_counts shortLine (RScalar 1) 80000)
    as (rings & m & E1 & E2 & Hl & Hv & _ & Hf);
    [ cbn; lia | lia | exact I | ].
  rewrite shortLine_open in Hl. cbn in Hl.
  rewrite tubeAngles_length_80000 in Hv.
  exists rings, m. repeat split; try assumption.
  - rewrite Hv, Hl. lia.
  - rewrite Hv, Hl. lia.
  - rewrite Hf, Hl. lia.
Qed.

(** C9, at [vertex_num = 80000].  For the open line from (0,0,0) to
    (1,0,0) with radius 1 the mesh has 13 * 79999 = 1039987 vertices, and
    its face list holds the quad (959999, 880000, 960000, 1039999), the
    last quad of the last round.  All four indices are below
    13 * 80000, but 1039999 is no index of the vertex list. *)
Theorem lineToMesh_80000_face_outside_vertices :
  exists m,
    lineToMesh shortLine (RScalar 1) 80000 = Ok m /\
    Z.of_nat (length (vertices m)) = 1039987%Z /\
    In (959999, 880000, 960000, 1039999)%Z (faces m) /\
    quadBelow (13 * 80000) (959999, 880000, 960000, 1039999)%Z /\
    ~ quadBelow (Z.of_nat (length (vertices m)))
                (959999, 880000, 960000, 1039999)%Z.
Proof.
  destruct (lineToMesh_counts shortLine (RScalar 1) 80000)
    as (rings & m & _ & Em & Hl & Hv & Hf & _);
    [ cbn; lia | lia | exact I | ].
  rewrite shortLine_open in Hl. cbn in Hl.
  rewrite tubeAngles_length_80000, Hl in Hv.
  assert (Hn : Z.of_nat (length (vertices m)) = 1039987%Z)
    by (rewrite Hv; lia).
  exists m. split; [ exact Em | ]. split; [ exact Hn | ].
  split.
  { rewrite Hf, Hl. apply in_flat_map. exists 11%Z.
    split; [ apply In_range; lia | ].
    unfold roundQuads. apply in_or_app. right. left. reflexivity. }
  split; [ unfold quadBelow; lia | ].
  rewrite Hn. unfold quadBelow. lia.
Qed.

(** X2.  As long as [vertex_num * 0.0001 < 2*pi] (that is, up to 62831)
    a line of [N >= 2] points gives [3*(N-1) + 1] rings when it is closed
    and [5 + 2*(N-1) + (N-2) + 6] when it is open, [vertex_num] vertices
    for each ring and [vertex_num] quads for each pair of consecutive
    rings. *)
Theorem lineToMesh_small_counts (pp : list Point) (radius : radius_arg)
    (vertex_num : Z) :
  (2 <= length pp)%nat -> (1 <= vertex_num)%Z ->
  IZR vertex_num * 0.0001 < 2 * PI ->
  radiusOk radius (length pp) ->
  exists rings m,
    lineToMesh_rings pp radius vertex_num = Ok rings /\
    lineToMesh pp radius vertex_num = Ok m /\
    length rings =
      (if isClosed pp then (3 * (length pp - 1) + 1)%nat
       else (5 + 2 * (length pp - 1) + (length pp - 2) + 6)%nat) /\
    Z.of_nat (length (vertices m)) =
      (Z.of_nat (length rings) * vertex_num)%Z /\
    Z.of_nat (length (faces m)) =
      ((Z.of_nat (length rings) - 1) * vertex_num)%Z.
Proof.
  intros HN Hv Hsmall Hr.
  destruct (lineToMesh_counts pp radius vertex_num HN Hv Hr)
    as (rings & m & E1 & E2 & Hl & Hvs & _ & Hf).
  rewrite tubeAngles_length in Hvs by assumption.
  exists rings, m. repeat split; try assumption.
  - rewrite Hl. destruct (isClosed pp); lia.
  - rewrite Hvs. lia.
Qed.

Lemma lineToMesh_small_counts_witness :
  ((2 <= length shortLine)%nat /\ (1 <= 8)%Z /\ IZR 8 * 0.0001 < 2 * PI /\
   radiusOk (RScalar 1) (length shortLine)) /\
  exists rings m,
    lineToMesh_rings shortLine (RScalar 1) 8 = Ok rings /\
    lineToMesh shortLine (RScalar 1) 8 = Ok m /\
    length rings = 13%nat /\
    Z.of_nat (length (vertices m)) = (13 * 8)%Z /\
    Z.of_nat (length (faces m)) = (12 * 8)%Z.
Proof.
  assert (Hs : IZR 8 * 0.0001 < 2 * PI) by (pose proof PI2_1; lra).
  split.
  { split; [ cbn; lia | ]. split; [ lia | ]. split; [ exact Hs | exact I ]. }
  destruct (lineToMesh_small_counts shortLine (RScalar 1) 8)
    as (rings & m & E1 & E2 & Hl & Hvs & Hf);
    [ cbn; lia | lia | exact Hs | exact I | ].
  rewrite shortLine_open in Hl. cbn in Hl.
  exists rings, m. repeat split; try assumption.
  - rewrite Hvs, Hl. lia.
  - rewrite Hf, Hl. lia.
Defined.

(** ** Errors *)

(** C8.  A radius sequence whose length is not the number of points
    makes [lineToMesh] raise [ValueError]; this is decided before angles,
    distances or rings are computed, and the result holds no mesh. *)
Theorem radius_length_mismatch (pp : list Point) (rs : list R)
    (vertex_num : Z) :
  length rs <> length pp ->
  process_radius (RSeq rs) (length pp) = Raise ValueError /\
  lineToMesh_rings pp (RSeq rs) vertex_num = Raise ValueError /\
  lineToMesh pp (RSeq rs) vertex_num = Raise ValueError.
Proof.
  intro H.
  assert (E : process_radius (RSeq rs) (length pp) = Raise ValueError).
  { cbn [process_radius]. apply Nat.eqb_neq in H. now rewrite H. }
  split; [ exact E | ].
  assert (E' : lineToMesh_rings pp (RSeq rs) vertex_num = Raise ValueError).
  { unfold lineToMesh_rings. now rewrite E. }
  split; [ exact E' | ].
  unfold lineToMesh. now rewrite E'.
Qed.

Lemma radius_length_mismatch_witness :
  length [1; 1] <> length roundTrip /\
  lineToMesh roundTrip (RSeq [1; 1]) 8 = Raise ValueError.
Proof.
  split; [ cbn; lia | ].
  apply (radius_length_mismatch roundTrip [1; 1] 8). cbn. lia.
Defined.

Lemma lineToMesh_short (pp : list Point) (radius : radius_arg)
    (vertex_num : Z) :
  (length pp < 2)%nat -> vertex_num <> 0%Z ->
  lineToMesh pp radius vertex_num = Raise ValueError.
Proof.
  intros HN Hv. unfold lineToMesh, lineToMesh_rings.
  destruct (process_radius radius (length pp)) as [rad | e] eqn:E.
  - cbn [bind]. rewrite (circleAngles_ok _ Hv). cbn [bind].
    now rewrite (bufferDistance_short rad pp HN).
  - destruct radius as [r | rs]; cbn [process_radius] in E.
    + discriminate.
    + destruct (negb _) in E; now inversion E.
Qed.

(** C3, what holds instead.  [vertex_num] is not checked: for
    [vertex_num >= 1] (1 and 2 included) and a radius that fits,
    [lineToMesh] raises [ValueError] when the line has fewer than two
    points and returns a mesh otherwise. *)
Theorem lineToMesh_checks (pp : list Point) (radius : radius_arg)
    (vertex_num : Z) :
  (1 <= vertex_num)%Z -> radiusOk radius (length pp) ->
  if (length pp <? 2)%nat
  then lineToMesh pp radius vertex_num = Raise ValueError
  else exists m, lineToMesh pp radius vertex_num = Ok m.
Proof.
  intros Hv Hr. destruct (length pp <? 2)%nat eqn:E.
  - apply Nat.ltb_lt in E. apply lineToMesh_short; [ exact E | lia ].
  - apply Nat.ltb_ge in E.
    destruct (lineToMesh_counts pp radius vertex_num E Hv Hr)
      as (rings & m & _ & Em & _).
    now exists m.
Qed.

Lemma lineToMesh_checks_witness :
  ((1 <= 2)%Z /\ radiusOk (RScalar 1) (length shortLine)) /\
  exists m, lineToMesh shortLine (RScalar 1) 2 = Ok m.
Proof.
  split; [ split; [ lia | exact I ] | ].
  apply (lineToMesh_checks shortLine (RScalar 1) 2); [ lia | exact I ].
Defined.

(** C3 fails for [vertex_num = 2]: the open line from (0,0,0) to (1,0,0)
    with radius 1 gives a mesh, no error. *)
Lemma lineToMesh_two_vertices_no_error :
  (2 < 3)%Z /\
  (exists m, lineToMesh shortLine (RScalar 1) 2 = Ok m) /\
  lineToMesh shortLine (RScalar 1) 2 <> Raise ValueError.
Proof.
  split; [ lia | ].
  destruct (lineToMesh_counts shortLine (RScalar 1) 2)
    as (rings & m & _ & Em & _); [ cbn; lia | lia | exact I | ].
  split; [ now exists m | ].
  rewrite Em. discriminate.
Qed.

(** ** The tangents *)

Lemma length_lineNormals (pp : list Point) :
  (1 <= length pp)%nat -> length (lineNormals pp) = length pp.
Proof.
  intro HN. unfold lineNormals, lineNormalsWith, pointsetSub.
  destruct pp as [ | x l ]; [ cbn in HN; lia | ].
  cbn [tl].
  destruct (isClosed (x :: l));
    rewrite length_map, length_app, length_map2_shift; cbn; lia.
Qed.

(** Before the last one, the tangents are the negated normalised
    differences [pp[i+1] - pp[i]]. *)
Lemma lineNormals_item (pp : list Point) (i : nat) :
  (i < length pp - 1)%nat ->
  item origin (lineNormals pp) i =
  scale (-1) (normalize (sub (item origin pp (i + 1)) (item origin pp i))).
Proof.
  intro Hi. unfold lineNormals, lineNormalsWith, pointsetSub, item.
  destruct pp as [ | x l ]; [ cbn in Hi; lia | ].
  cbn [tl length] in *.
  set (g := fun v => scale (-1) (normalize v)).
  assert (Hl : (i < length l)%nat) by lia.
  assert (E : forall last,
             nth i (map g (map2 sub l (removelast (x :: l)) ++ [last])) origin
             = g (sub (nth (i + 1) (x :: l) origin) (nth i (x :: l) origin))).
  { intro last.
    rewrite (nth_indep _ origin (g origin))
      by (rewrite length_map, length_app, length_map2_shift; cbn; lia).
    rewrite map_nth, app_nth1 by (now rewrite length_map2_shift).
    rewrite (nth_map2_shift sub x l i origin origin Hl).
    replace (i + 1)%nat with (S i) by lia. reflexivity. }
  destruct (isClosed (x :: l)); apply E.
Qed.

(** The last tangent is the negated normalised difference that was
    appended. *)
Lemma lineNormals_last (pp : list Point) :
  (1 <= length pp)%nat ->
  item_last origin (lineNormals pp) =
  scale (-1)
    (normalize (if isClosed pp
                then sub (item origin pp 0) (item origin pp 1)
                else sub (item_last2 origin pp) (item_last origin pp))).
Proof.
  intro HN. unfold item_last at 1.
  rewrite length_lineNormals by exact HN.
  unfold lineNormals, lineNormalsWith, pointsetSub.
  destruct pp as [ | x l ]; [ cbn in HN; lia | ].
  cbn [tl].
  set (g := fun v => scale (-1) (normalize v)).
  assert (E : forall last,
             nth (length (x :: l) - 1)
                 (map g (map2 sub l (removelast (x :: l)) ++ [last])) origin
             = g last).
  { intro last.
    rewrite (nth_indep _ origin (g origin))
      by (rewrite length_map, length_app, length_map2_shift; cbn; lia).
    rewrite map_nth, app_nth2 by (rewrite length_map2_shift; cbn; lia).
    rewrite length_map2_shift.
    replace (length (x :: l) - 1 - length l)%nat with 0%nat by (cbn; lia).
    reflexivity. }
  destruct (isClosed (x :: l)); apply E.
Qed.

Lemma neg_normalize_sub (p q : Point) :
  scale (-1) (normalize (sub p q)) = normalize (sub q p).
Proof. now rewrite normalize_neg, sub_as_neg. Qed.

(** The last tangent does not depend on the difference of two pointsets:
    it is the negated normalised difference of the two points that line
    97 or line 99 appends. *)
Lemma lineNormalsWith_last (psub : list Point -> list Point -> list Point)
    (pp : list Point) :
  item_last origin (lineNormalsWith psub pp) =
  scale (-1)
    (normalize (if isClosed pp
                then sub (item origin pp 0) (item origin pp 1)
                else sub (item_last2 origin pp) (item_last origin pp))).
Proof.
  unfold item_last at 1, lineNormalsWith. cbv zeta.
  set (g := fun v => scale (-1) (normalize v)).
  assert (E : forall xs last,
             nth (length (map g (xs ++ [last])) - 1)
                 (map g (xs ++ [last])) origin = g last).
  { intros xs last. rewrite map_app. cbn [map].
    rewrite length_app. cbn [length].
    rewrite app_nth2 by lia.
    replace (length (map g xs) + 1 - 1 - length (map g xs))%nat
      with 0%nat by lia.
    reflexivity. }
  destruct (isClosed pp); apply E.
Qed.

Lemma last_tangent_any_pointset_difference
    (psub : list Point -> list Point -> list Point) (pp : list Point) :
  item_last origin (lineNormalsWith psub pp) =
  item_last origin (lineNormals pp).
Proof. unfold lineNormals. now rewrite !lineNormalsWith_last. Qed.



Lemma norm_unitX_origin : norm (sub unitX origin) = 1.
Proof.
  apply norm_one_dot. unfold dot, sub, unitX, origin. cbn [px py pz]. ring.
Qed.



(** The negated normalisation of a difference that is a unit vector. *)
Lemma neg_normalize_unit_sub (p q v : Point) :
  sub q p = v -> norm v = 1 -> scale (-1) (normalize (sub p q)) = v.
Proof.
  intros E Hv. rewrite neg_normalize_sub, E. now apply normalize_of_unit.
Qed.

Ltac unit_difference :=
  apply neg_normalize_unit_sub;
  [ unfold sub, origin, unitX; cbn [px py pz]; f_equal; ring
  | apply norm_one_dot; unfold dot; cbn [px py pz]; ring ].




(** ** The rings of a line *)

(** A circle scaled by 0 is its centre, again and again. *)
Lemma place_zero (circm : list Point) (c : Point) :
  place 0 circm c = repeat c (length circm).
Proof.
  unfold place. induction circm as [ | p l IH ]; [ reflexivity | ].
  cbn [map length repeat]. rewrite IH. f_equal.
  destruct p, c. unfold add, scale. cbn [px py pz]. f_equal; ring.
Qed.

(** The factor of the cap ring for [j = 5]. *)
Lemma cap_factor_5 : sqrt (1 - (IZR 5 / 5) ^ 2) = 0.
Proof.
  replace (1 - (5 / 5) ^ 2) with 0 by field. apply sqrt_0.
Qed.

Lemma split_ends {A : Type} (a x : A) (l1 l2 l3 l4 : list A) :
  ((a :: l1) ++ l2) ++ l3 ++ l4 ++ [x] =
  a :: (l1 ++ l2 ++ l3 ++ l4) ++ [x].
Proof. cbn [app]. now rewrite <- !app_assoc. Qed.

(** An open line starts with the ring of the start cap for [j = 5] and
    ends with the ring of the end cap for [j = 5]. *)
Lemma assemble_open_caps (pp : list Point) (rad angle_cos angle_sin : list R)
    (bufdist : R) (normals : list Point) :
  (2 <= length pp)%nat ->
  exists stS stE middle,
    length (asm_circm stS) = length (combine angle_cos angle_sin) /\
    length (asm_circm stE) = length (combine angle_cos angle_sin) /\
    assemble pp rad angle_cos angle_sin bufdist false normals =
    startCapRing pp rad bufdist normals stS 5
      :: middle ++ [endCapRing pp rad bufdist normals stE 5].
Proof.
  intro HN.
  destruct (assemble_open_end pp rad angle_cos angle_sin bufdist false
              normals eq_refl HN) as [_ E].
  cbv zeta in E.
  match type of E with
  | _ = asm_rings (sweep _ _ _ _ _ _ _ ?l ?s) ++ _ =>
      destruct (sweep_rings_grow pp rad angle_cos angle_sin bufdist false
                  normals l s) as (post & Ep)
  end.
  rewrite Ep in E. cbn [asm_rings] in E.
  match type of E with
  | _ = (map ?f _ ++ _) ++ ?C ++ map ?g _ =>
      change (map g [0; 1; 2; 3; 4; 5]%Z)
        with (map g [0; 1; 2; 3; 4]%Z ++ [g 5%Z]) in E;
      change (map f [5; 4; 3; 2; 1]%Z)
        with (f 5%Z :: map f [4; 3; 2; 1]%Z) in E
  end.
  rewrite split_ends in E.
  eexists (initialState angle_cos angle_sin normals), _, _.
  split; [ | split; [ | exact E ] ].
  - rewrite initialState_unfold. cbn [asm_circm]. apply length_getCircle.
  - cbn [asm_circm]. apply length_getCircle.
Qed.

(** The mesh is made of the vertices of the rings, in their order. *)
Lemma lineToMesh_vertices (pp : list Point) (radius : radius_arg)
    (vertex_num : Z) (rings : list Ring) :
  lineToMesh_rings pp radius vertex_num = Ok rings ->
  (2 <= length rings)%nat ->
  exists m,
    lineToMesh pp radius vertex_num = Ok m /\
    vertices m = concat (map ring_vertices rings).
Proof.
  intros E H2. unfold lineToMesh. rewrite E. cbn [bind].
  rewrite buildFaces_rounds by lia. cbn [bind].
  eexists. split; reflexivity.
Qed.

(** For an open line, the first ring (start cap, [j = 5]) is scaled by
    [sqrt(1 - (5/5)^2) * radius[0] = 0], so each of its vertices, one
    per angle, is the point [pp[0] - bufdist*normals[0]]; the last ring
    (end cap, [j = 5]) likewise has all its vertices at
    [pp[-1] + bufdist*normals[-1]].  The vertex list of the mesh starts
    and ends with these repeated points. *)
Lemma open_line_apex (pp : list Point) (radius : radius_arg)
    (vertex_num : Z) :
  (2 <= length pp)%nat -> (1 <= vertex_num)%Z ->
  radiusOk radius (length pp) -> isClosed pp = false ->
  exists rad bufdist rings first middle last m,
    process_radius radius (length pp) = Ok rad /\
    bufferDistance rad pp = Ok bufdist /\
    lineToMesh_rings pp radius vertex_num = Ok rings /\
    lineToMesh pp radius vertex_num = Ok m /\
    rings = first :: middle ++ [last] /\
    let normals := lineNormals pp in
    let n := length (tubeAngles vertex_num) in
    let startApex :=
      sub (item origin pp 0) (scale bufdist (item origin normals 0)) in
    let endApex :=
      add (item_last origin pp) (scale bufdist (item_last origin normals)) in
    (ring_scale first = sqrt (1 - (5 / 5) ^ 2) * item 0 rad 0 /\
     ring_scale first = 0 /\
     ring_center first = startApex /\
     ring_vertices first = repeat startApex n) /\
    (ring_scale last = sqrt (1 - (5 / 5) ^ 2) * item_last 0 rad /\
     ring_scale last = 0 /\
     ring_center last = endApex /\
     ring_vertices last = repeat endApex n) /\
    vertices m =
      repeat startApex n ++ concat (map ring_vertices middle)
      ++ repeat endApex n.
Proof.
  intros HN Hv Hr Hopen.
  destruct (lineToMesh_rings_ok pp radius vertex_num HN ltac:(lia) Hr)
    as (rad & bufdist & Erad & _ & Ebuf & E).
  rewrite Hopen in E.
  destruct (assemble_open_caps pp rad (map cos (tubeAngles vertex_num))
              (map sin (tubeAngles vertex_num)) bufdist (lineNormals pp) HN)
    as (stS & stE & middle & HS & HE & Ea).
  rewrite length_cos_sin in HS, HE.
  rewrite Ea in E.
  destruct (lineToMesh_vertices pp radius vertex_num _ E) as (m & Em & Evs).
  { cbn [length]. rewrite length_app. cbn [length]. lia. }
  assert (Vs : ring_vertices (startCapRing pp rad bufdist (lineNormals pp) stS 5)
               = repeat (sub (item origin pp 0)
                             (scale bufdist (item origin (lineNormals pp) 0)))
                        (length (tubeAngles vertex_num))).
  { unfold startCapRing, capRing. cbn [ring_vertices].
    rewrite cap_factor_5, Rmult_0_l, place_zero, HS.
    do 3 f_equal. field. }
  assert (Ve : ring_vertices (endCapRing pp rad bufdist (lineNormals pp) stE 5)
               = repeat (add (item_last origin pp)
                             (scale bufdist
                                (item_last origin (lineNormals pp))))
                        (length (tubeAngles vertex_num))).
  { unfold endCapRing, capRing. cbn [ring_vertices].
    rewrite cap_factor_5, Rmult_0_l, place_zero, HE.
    do 3 f_equal. field. }
  exists rad, bufdist. do 5 eexists.
  split; [ exact Erad | ]. split; [ exact Ebuf | ].
  split; [ exact E | ]. split; [ exact Em | ].
  split; [ reflexivity | ]. cbv zeta.
  split; [ | split ].
  - split; [ reflexivity | ].
    split; [ unfold startCapRing, capRing; cbn [ring_scale];
             rewrite cap_factor_5; ring | ].
    split; [ | exact Vs ].
    unfold startCapRing, capRing. cbn [ring_center]. do 2 f_equal. field.
  - split; [ reflexivity | ].
    split; [ unfold endCapRing, capRing; cbn [ring_scale];
             rewrite cap_factor_5; ring | ].
    split; [ | exact Ve ].
    unfold endCapRing, capRing. cbn [ring_center]. do 2 f_equal. field.
  - rewrite Evs. cbn [map concat].
    rewrite map_app, concat_app. cbn [map concat].
    rewrite app_nil_r, Vs, Ve. reflexivity.
Qed.

Lemma shortLine_normals :
  item origin (lineNormals shortLine) 0 = mkPoint (-1) 0 0 /\
  item_last origin (lineNormals shortLine) = mkPoint 1 0 0.
Proof.
  split.
  - rewrite lineNormals_item by (cbn; lia).
    unfold item, shortLine. cbn [nth Nat.add]. unit_difference.
  - rewrite lineNormals_last by (cbn; lia).
    rewrite shortLine_open.
    unfold item_last, item_last2, shortLine. cbn [length Nat.sub nth].
    unit_difference.
Qed.

Lemma shortLine_bufdist (bufdist : R) :
  bufferDistance (map (Rmult 1) (repeat 1 2)) shortLine = Ok bufdist ->
  bufdist = 1 / 2.2.
Proof.
  unfold bufferDistance, lineDists, shortLine.
  cbn [repeat map amax tl removelast map2 amin fold_left bind].
  unfold distance. rewrite norm_unitX_origin.
  intro H. injection H as <-.
  unfold Rmin, Rmax. repeat destruct (Rle_dec _ _); lra.
Qed.

(** C10, at [vertex_num = 80000].  On the open line from (0,0,0) to
    (1,0,0) with radius 1 the first ring has its vertices at
    (1/2.2, 0, 0), which is [pp[0] - bufdist*normals[0]], and the last
    ring has them at (1 + 1/2.2, 0, 0), which is
    [pp[-1] + bufdist*normals[-1]]; but each of the two rings has 79999
    vertices, not 80000, and the vertex list of the mesh starts and ends
    with 79999 copies of these points. *)
Theorem open_line_apex_80000 :
  isClosed shortLine = false /\
  exists rings first middle last m,
    lineToMesh_rings shortLine (RScalar 1) 80000 = Ok rings /\
    lineToMesh shortLine (RScalar 1) 80000 = Ok m /\
    rings = first :: middle ++ [last] /\
    ring_vertices first = repeat (mkPoint (1 / 2.2) 0 0) (Z.to_nat 79999) /\
    ring_vertices last =
      repeat (mkPoint (1 + 1 / 2.2) 0 0) (Z.to_nat 79999) /\
    Z.of_nat (length (ring_vertices first)) = 79999%Z /\
    Z.of_nat (length (ring_vertices last)) = 79999%Z /\
    Z.of_nat (length (ring_vertices first)) <> 80000%Z /\
    vertices m =
      repeat (mkPoint (1 / 2.2) 0 0) (Z.to_nat 79999)
      ++ concat (map ring_vertices middle)
      ++ repeat (mkPoint (1 + 1 / 2.2) 0 0) (Z.to_nat 79999).
Proof.
  split; [ apply shortLine_open | ].
  destruct (open_line_apex shortLine (RScalar 1) 80000)
    as (rad & bufdist & rings & first & middle & last & m & Erad & Ebuf & E
        & Em & Er & (_ & _ & _ & Vf) & (_ & _ & _ & Vl) & Vm);
    [ cbn; lia | lia | exact I | apply shortLine_open | ].
  assert (Hb : bufdist = 1 / 2.2).
  { apply shortLine_bufdist. cbn in Erad. injection Erad as <-. exact Ebuf. }
  destruct shortLine_normals as [E0 E1].
  rewrite tubeAngles_length_80000, Hb in Vf, Vl, Vm.
  rewrite E0 in Vf, Vm. rewrite E1 in Vl, Vm.
  assert (Es : sub (item origin shortLine 0)
                   (scale (1 / 2.2) (mkPoint (-1) 0 0))
               = mkPoint (1 / 2.2) 0 0).
  { unfold item, shortLine, origin, sub, scale. cbn [nth px py pz].
    f_equal; lra. }
  assert (Ee : add (item_last origin shortLine)
                   (scale (1 / 2.2) (mkPoint 1 0 0))
               = mkPoint (1 + 1 / 2.2) 0 0).
  { unfold item_last, shortLine, unitX, add, scale.
    cbn [length Nat.sub nth px py pz]. f_equal; lra. }
  rewrite Es in Vf, Vm. rewrite Ee in Vl, Vm.
  exists rings, first, middle, last, m.
  split; [ exact E | ]. split; [ exact Em | ]. split; [ exact Er | ].
  split; [ exact Vf | ]. split; [ exact Vl | ].
  rewrite Vf, Vl, !repeat_length.
  repeat split; try lia. exact Vm.
Qed.

Lemma shortLine_regular : regular shortLine.
Proof.
  split.
  - intros i Hi. cbn in Hi. replace i with 0%nat by lia.
    unfold item, shortLine, origin, unitX. cbn [nth Nat.add].
    intro H. injection H. lra.
  - intros i Hi Hb. cbn in Hi. replace i with 0%nat in Hb by lia.
    rewrite shortLine_open in Hb. cbn in Hb. discriminate.
Qed.

(** X3.  For a regular open line and [vertex_num * 0.0001 < 2*pi], the
    first ring of the mesh, the ring of the start cap for [j = 5], has
    [vertex_num] vertices, all of them the point
    [pp[0] - bufdist*normals[0]], and the last ring, the ring of the end
    cap for [j = 5], has [vertex_num] vertices, all of them the point
    [pp[-1] + bufdist*normals[-1]]: the factor [sqrt(1 - (5/5)^2)] of
    these rings is 0.  The vertex list of the mesh starts and ends with
    these [vertex_num] equal points. *)
Theorem open_line_apex_vertices (pp : list Point) (radius : radius_arg)
    (vertex_num : Z) :
  (2 <= length pp)%nat -> (1 <= vertex_num)%Z ->
  IZR vertex_num * 0.0001 < 2 * PI ->
  radiusOk radius (length pp) -> regular pp -> isClosed pp = false ->
  exists rad bufdist rings first middle last m,
    process_radius radius (length pp) = Ok rad /\
    bufferDistance rad pp = Ok bufdist /\
    lineToMesh_rings pp radius vertex_num = Ok rings /\
    lineToMesh pp radius vertex_num = Ok m /\
    rings = first :: middle ++ [last] /\
    let normals := lineNormals pp in
    let n := Z.to_nat vertex_num in
    let startApex :=
      sub (item origin pp 0) (scale bufdist (item origin normals 0)) in
    let endApex :=
      add (item_last origin pp) (scale bufdist (item_last origin normals)) in
    ring_vertices first = repeat startApex n /\
    ring_vertices last = repeat endApex n /\
    vertices m =
      repeat startApex n ++ concat (map ring_vertices middle)
      ++ repeat endApex n.
Proof.
  intros HN Hv Hsmall Hr _ Hopen.
  destruct (open_line_apex pp radius vertex_num HN Hv Hr Hopen)
    as (rad & bufdist & rings & first & middle & last & m & Erad & Ebuf & E
        & Em & Er & (_ & _ & _ & Vf) & (_ & _ & _ & Vl) & Vm).
  rewrite tubeAngles_length in Vf, Vl, Vm by assumption.
  exists rad, bufdist, rings, first, middle, last, m.
  repeat split; assumption.
Qed.

Lemma open_line_apex_vertices_witness :
  ((2 <= length shortLine)%nat /\ (1 <= 4)%Z /\ IZR 4 * 0.0001 < 2 * PI /\
   radiusOk (RScalar 1) (length shortLine) /\ regular shortLine /\
   isClosed shortLine = false) /\
  exists rings first middle last,
    lineToMesh_rings shortLine (RScalar 1) 4 = Ok rings /\
    rings = first :: middle ++ [last] /\
    ring_vertices first = repeat (mkPoint (1 / 2.2) 0 0) 4 /\
    ring_vertices last = repeat (mkPoint (1 + 1 / 2.2) 0 0) 4.
Proof.
  assert (Hs : IZR 4 * 0.0001 < 2 * PI) by (pose proof PI2_1; lra).
  split.
  { split; [ cbn; lia | ]. split; [ lia | ]. split; [ exact Hs | ].
    split; [ exact I | ].
    split; [ apply shortLine_regular | apply shortLine_open ]. }
  destruct (open_line_apex_vertices shortLine (RScalar 1) 4)
    as (rad & bufdist & rings & first & middle & last & m & Erad & Ebuf & E
        & _ & Er & Vf & Vl & _);
    [ cbn; lia | lia | exact Hs | exact I | apply shortLine_regular
    | apply shortLine_open | ].
  assert (Hb : bufdist = 1 / 2.2).
  { apply shortLine_bufdist. cbn in Erad. injection Erad as <-. exact Ebuf. }
  destruct shortLine_normals as [E0 E1].
  rewrite E0, Hb in Vf. rewrite E1, Hb in Vl.
  exists rings, first, middle, last.
  split; [ exact E | ]. split; [ exact Er | ].
  split.
  - rewrite Vf. f_equal.
    unfold item, shortLine, origin, sub, scale. cbn [nth px py pz].
    f_equal; lra.
  - rewrite Vl. f_equal.
    unfold item_last, shortLine, unitX, add, scale.
    cbn [length Nat.sub nth px py pz]. f_equal; lra.
Defined.

(* ================================================================== *)
(** * Further properties of lineToMesh.py *)

(** ** getSpanVectors keeps its own result *)

Lemma cross_scale_l (s : R) (p q : Point) :
  cross (scale s p) q = scale s (cross p q).
Proof. coords. f_equal; ring. Qed.

Lemma distance_self (p : Point) : distance p p = 0.
Proof.
  unfold distance, norm.
  replace (dot (sub p p) (sub p p)) with 0 by (coords; ring).
  apply sqrt_0.
Qed.

(** A frame [(a, a x normal)] around a unit [normal] is returned as it
    is. *)
Lemma getSpanVectors_fixed (normal a : Point) :
  norm normal = 1 -> norm a = 1 -> dot a normal = 0 ->
  getSpanVectors normal a (cross a normal) = (a, cross a normal).
Proof.
  intros Hn Ha Hon.
  assert (Hn2 : dot normal normal = 1) by now apply norm_one_dot.
  assert (Ha2 : dot a a = 1) by now apply norm_one_dot.
  assert (Hd : cross (cross a normal) normal = scale (-1) a).
  { rewrite cross_cross, Hon, Hn2. clear. coords. f_equal; ring. }
  assert (Hb : norm (cross a normal) = 1).
  { apply norm_one_dot. rewrite cross_lagrange, Ha2, Hn2, Hon. ring. }
  unfold getSpanVectors, spanCandidates, firstCandidate. cbv zeta.
  rewrite Hd, norm_scale_neg, Ha.
  destruct (Rlt_dec 1 0.001) as [Habs | _]; [ lra | ].
  rewrite scale_scale. replace (-1 * -1) with 1 by ring. rewrite scale_one.
  rewrite distance_self.
  destruct (Rlt_dec 0 (distance a (scale (-1) a))) as [_ | Hno].
  - now rewrite (normalize_of_unit a Ha), (normalize_of_unit _ Hb).
  - exfalso. apply Hno. apply norm_pos_dot.
    replace (dot (sub a (scale (-1) a)) (sub a (scale (-1) a)))
      with (4 * dot a a) by (coords; ring).
    lra.
Qed.

(** What [getSpanVectors] returns for a unit tangent and an orthonormal
    pair: an orthonormal frame orthogonal to the tangent whose second
    vector is the cross product of the first with the tangent. *)
Lemma getSpanVectors_frame (normal c d : Point) :
  norm normal = 1 -> orthonormal (c, d) ->
  let f := getSpanVectors normal c d in
  orthonormal f /\ dot (fst f) normal = 0 /\ dot (snd f) normal = 0 /\
  snd f = cross (fst f) normal.
Proof.
  intros Hn (Hc & Hd & Hcd). cbn [fst snd] in Hc, Hd, Hcd. cbv zeta.
  pose proof (spanCandidates_facts normal c d Hn Hc Hd Hcd) as HF.
  unfold getSpanVectors.
  destruct (spanCandidates normal c d) as [a1 b1].
  destruct HF as (Ho & Hz & Hb & _).
  assert (Hn2 : dot normal normal = 1) by now apply norm_one_dot.
  assert (Hna : 0 < norm a1) by (apply norm_pos_dot; exact Hz).
  assert (Hbz : dot b1 b1 = dot a1 a1).
  { subst b1. rewrite cross_lagrange, Ho, Hn2. ring. }
  assert (Hnb : norm b1 = norm a1) by (unfold norm; now rewrite Hbz).
  assert (Hbn : normalize b1 = cross (normalize a1) normal).
  { unfold normalize. now rewrite Hnb, cross_scale_l, Hb. }
  cbn [fst snd]. unfold orthonormal. cbn [fst snd].
  rewrite Hbn.
  assert (Hua : norm (normalize a1) = 1) by now apply normalize_unit.
  assert (Hoa : dot (normalize a1) normal = 0).
  { rewrite normalize_dot_l, Ho. ring. }
  repeat split.
  - exact Hua.
  - apply norm_one_dot. rewrite cross_lagrange, Hoa, Hn2.
    apply norm_one_dot in Hua. rewrite Hua. ring.
  - rewrite dot_comm. apply cross_dot_l.
  - exact Hoa.
  - apply cross_dot_r.
Qed.

(** X4.  For a unit tangent and an orthonormal previous pair, the frame
    [(a, b)] that [getSpanVectors] returns has [b = a x tangent], and
    propagating it again with the same tangent returns it unchanged. *)
Theorem getSpanVectors_idempotent (normal prevA prevB : Point) :
  norm normal = 1 -> norm prevA = 1 -> norm prevB = 1 ->
  dot prevA prevB = 0 ->
  let '(a, b) := getSpanVectors normal prevA prevB in
  b = cross a normal /\ getSpanVectors normal a b = (a, b).
Proof.
  intros Hn Hc Hd Hcd.
  destruct (getSpanVectors_frame normal prevA prevB Hn)
    as ((Ha & _ & _) & Hoa & _ & Hb).
  { repeat split; assumption. }
  destruct (getSpanVectors normal prevA prevB) as [a b].
  cbn [fst snd] in *. split; [ exact Hb | ].
  rewrite Hb. now apply getSpanVectors_fixed.
Qed.

Lemma getSpanVectors_idempotent_witness :
  (norm (mkPoint 1 0 0) = 1 /\ norm (mkPoint 0 0 1) = 1 /\
   norm (mkPoint 0 1 0) = 1 /\ dot (mkPoint 0 0 1) (mkPoint 0 1 0) = 0) /\
  let '(a, b) :=
    getSpanVectors (mkPoint 1 0 0) (mkPoint 0 0 1) (mkPoint 0 1 0) in
  b = cross a (mkPoint 1 0 0) /\ getSpanVectors (mkPoint 1 0 0) a b = (a, b).
Proof.
  assert (H1 : norm (mkPoint 1 0 0) = 1).
  { apply norm_one_dot. unfold dot. cbn [px py pz]. ring. }
  assert (H2 : norm (mkPoint 0 0 1) = 1).
  { apply norm_one_dot. unfold dot. cbn [px py pz]. ring. }
  assert (H3 : norm (mkPoint 0 1 0) = 1).
  { apply norm_one_dot. unfold dot. cbn [px py pz]. ring. }
  assert (H4 : dot (mkPoint 0 0 1) (mkPoint 0 1 0) = 0).
  { unfold dot. cbn [px py pz]. ring. }
  split; [ repeat split; assumption | ].
  exact (getSpanVectors_idempotent (mkPoint 1 0 0) (mkPoint 0 0 1)
           (mkPoint 0 1 0) H1 H2 H3 H4).
Defined.

(** ** getCircle samples a unit circle *)

Lemma getCircle_item (angles : list R) (a b : Point) (p : Point) :
  In p (getCircle (map cos angles) (map sin angles) a b) ->
  exists t, In t angles /\ p = add (scale (cos t) a) (scale (sin t) b).
Proof.
  unfold getCircle. intro H.
  apply in_map_iff in H. destruct H as ([c s] & <- & Hcs).
  assert (G : exists t, In t angles /\ c = cos t /\ s = sin t).
  { clear - Hcs. induction angles as [ | t l IH ]; [ contradiction | ].
    cbn [map combine] in Hcs. destruct Hcs as [E | Hin].
    - injection E as <- <-. exists t. repeat split. now left.
    - destruct (IH Hin) as (t' & Ht & Hc). exists t'. split; [ now right | exact Hc ]. }
  destruct G as (t & Ht & -> & ->).
  exists t. split; [ exact Ht | reflexivity ].
Qed.

Lemma circle_point_unit (t : R) (a b : Point) :
  orthonormal (a, b) ->
  norm (add (scale (cos t) a) (scale (sin t) b)) = 1.
Proof.
  intros (Ha & Hb & Hab). cbn [fst snd] in *.
  apply norm_one_dot in Ha, Hb. apply norm_one_dot.
  assert (E : dot (add (scale (cos t) a) (scale (sin t) b))
                  (add (scale (cos t) a) (scale (sin t) b)) =
              cos t * cos t * dot a a + sin t * sin t * dot b b
              + 2 * (cos t * sin t) * dot a b).
  { clear. coords. ring. }
  rewrite E, Ha, Hb, Hab.
  pose proof (sin2_cos2 t) as H. unfold Rsqr in H. lra.
Qed.

(** X5.  With the cosines and sines of a list of angles and an
    orthonormal pair [(a, b)], [getCircle] returns one point per angle,
    the point for angle [t] being [cos t * a + sin t * b]; every point has
    length 1 and is orthogonal to every vector that is orthogonal to [a]
    and [b]. *)
Theorem getCircle_unit_circle (angles : list R) (a b : Point) :
  orthonormal (a, b) ->
  let circle := getCircle (map cos angles) (map sin angles) a b in
  length circle = length angles /\
  (forall k, (k < length angles)%nat ->
     nth k circle origin =
     add (scale (cos (nth k angles 0)) a) (scale (sin (nth k angles 0)) b)) /\
  Forall (fun p => norm p = 1) circle /\
  (forall n, dot a n = 0 -> dot b n = 0 ->
     Forall (fun p => dot p n = 0) circle).
Proof.
  intros Hf. cbv zeta.
  split; [ now rewrite length_getCircle, length_cos_sin | ].
  split.
  { intros k Hk. unfold getCircle.
    match goal with
    | |- nth k (map ?f _) origin = _ => set (g := f)
    end.
    rewrite (nth_indep _ origin (g (cos 0, sin 0)))
      by now rewrite length_map, length_cos_sin.
    rewrite map_nth, combine_nth by now rewrite !length_map.
    rewrite !map_nth. reflexivity. }
  split.
  - apply Forall_forall. intros p Hp.
    destruct (getCircle_item angles a b p Hp) as (t & _ & ->).
    now apply circle_point_unit.
  - intros n Ha Hb. apply Forall_forall. intros p Hp.
    destruct (getCircle_item angles a b p Hp) as (t & _ & ->).
    replace (dot (add (scale (cos t) a) (scale (sin t) b)) n)
      with (cos t * dot a n + sin t * dot b n) by (clear; coords; ring).
    rewrite Ha, Hb. ring.
Qed.

Lemma initial_pair_orthonormal : orthonormal (mkPoint 0 0 1, mkPoint 0 1 0).
Proof.
  unfold orthonormal. cbn [fst snd].
  repeat split; [ apply norm_one_dot | apply norm_one_dot | ];
    unfold dot; cbn [px py pz]; ring.
Qed.

Lemma getCircle_unit_circle_witness :
  orthonormal (mkPoint 0 0 1, mkPoint 0 1 0) /\
  Forall (fun p => norm p = 1)
         (getCircle (map cos [0; PI / 2]) (map sin [0; PI / 2])
                    (mkPoint 0 0 1) (mkPoint 0 1 0)).
Proof.
  split; [ apply initial_pair_orthonormal | ].
  apply (getCircle_unit_circle [0; PI / 2] (mkPoint 0 0 1) (mkPoint 0 1 0)).
  apply initial_pair_orthonormal.
Defined.

(** ** The buffer distance *)

Lemma fold_Rmin_le (l : list R) (x : R) :
  fold_left Rmin l x <= x /\
  forall y, In y l -> fold_left Rmin l x <= y.
Proof.
  revert x. induction l as [ | z l IH ]; intro x.
  - split; [ cbn; lra | contradiction ].
  - cbn [fold_left]. destruct (IH (Rmin x z)) as [H1 H2].
    pose proof (Rmin_l x z). pose proof (Rmin_r x z).
    split; [ lra | ].
    intros y [<- | Hy]; [ lra | now apply H2 ].
Qed.

Lemma fold_Rmax_ge (l : list R) (x : R) :
  x <= fold_left Rmax l x /\
  (forall y, In y l -> y <= fold_left Rmax l x) /\
  In (fold_left Rmax l x) (x :: l).
Proof.
  revert x. induction l as [ | z l IH ]; intro x.
  - split; [ cbn; lra | ]. split; [ contradiction | now left ].
  - cbn [fold_left]. destruct (IH (Rmax x z)) as (H1 & H2 & H3).
    pose proof (Rmax_l x z). pose proof (Rmax_r x z).
    split; [ lra | ]. split.
    + intros y [<- | Hy]; [ lra | now apply H2 ].
    + destruct H3 as [E | Hin].
      * rewrite <- E. unfold Rmax. destruct (Rle_dec x z); cbn; auto.
      * right. now right.
Qed.

Lemma lineDists_item (pp : list Point) (i : nat) :
  (i < length pp - 1)%nat ->
  nth i (lineDists pp) 0 =
  distance (item origin pp (i + 1)) (item origin pp i).
Proof.
  intro Hi. unfold lineDists, item.
  destruct pp as [ | x l ]; [ cbn in Hi; lia | ].
  cbn [tl length] in *.
  rewrite (nth_map2_shift distance x l i 0 origin) by lia.
  replace (i + 1)%nat with (S i) by lia. reflexivity.
Qed.

(** X6.  When [bufdist] is computed it is at most the largest radius and
    at most the length of every line piece divided by 2.2; it is one of
    the two bounds, the largest radius or the shortest length divided by
    2.2; and it is not negative as soon as one radius is not. *)
Theorem bufferDistance_bounds (rad : list R) (pp : list Point) (bufdist : R) :
  bufferDistance rad pp = Ok bufdist ->
  (forall i, (i < length pp - 1)%nat ->
     2.2 * bufdist <= distance (item origin pp (i + 1)) (item origin pp i)) /\
  (exists r, In r rad /\ (forall r', In r' rad -> r' <= r) /\
             bufdist <= r /\
             (bufdist = r \/
              exists i, (i < length pp - 1)%nat /\
                2.2 * bufdist =
                distance (item origin pp (i + 1)) (item origin pp i))) /\
  ((exists r, In r rad /\ 0 <= r) -> 0 <= bufdist).
Proof.
  unfold bufferDistance. intro H.
  destruct rad as [ | r0 rad ]; [ discriminate | ].
  pose proof (length_lineDists pp) as Hlen.
  destruct (lineDists pp) as [ | d0 ds ] eqn:Ed; [ discriminate | ].
  cbn [amax amin bind] in H. injection H as <-.
  set (rmax := fold_left Rmax rad r0).
  set (dmin := fold_left Rmin ds d0).
  destruct (fold_Rmax_ge rad r0) as (M1 & M2 & M3). fold rmax in M1, M2, M3.
  destruct (fold_Rmin_le ds d0) as (m1 & m2). fold dmin in m1, m2.
  assert (Hd : forall d, In d (d0 :: ds) -> dmin <= d).
  { intros d [<- | Hd]; [ exact m1 | now apply m2 ]. }
  assert (Hall : forall r', In r' (r0 :: rad) -> r' <= rmax).
  { intros r' [<- | Hr]; [ exact M1 | now apply M2 ]. }
  pose proof (Rmin_l rmax (dmin / 2.2)) as Hl.
  pose proof (Rmin_r rmax (dmin / 2.2)) as Hr.
  assert (Hseg : forall i, (i < length pp - 1)%nat ->
                 In (distance (item origin pp (i + 1)) (item origin pp i))
                    (d0 :: ds)).
  { intros i Hi. rewrite <- lineDists_item, Ed by exact Hi.
    apply nth_In. cbn [length] in *. lia. }
  split.
  { intros i Hi. specialize (Hd _ (Hseg i Hi)). lra. }
  split.
  { exists rmax. split; [ exact M3 | ]. split; [ exact Hall | ].
    split; [ exact Hl | ].
    unfold Rmin. destruct (Rle_dec rmax (dmin / 2.2)); [ now left | right ].
    assert (Hin : In dmin (d0 :: ds)).
    { subst dmin. clear. revert d0.
      induction ds as [ | z l IH ]; intro d0; [ now left | ].
      cbn [fold_left]. destruct (IH (Rmin d0 z)) as [E | Hin].
      - rewrite <- E. unfold Rmin. destruct (Rle_dec d0 z); cbn; auto.
      - right. now right. }
    rewrite <- Ed in Hin.
    apply (In_nth _ _ 0) in Hin. destruct Hin as (i & Hi & Ei).
    rewrite length_lineDists in Hi.
    exists i. split; [ exact Hi | ].
    rewrite <- lineDists_item, Ei by exact Hi. lra. }
  intros (r & Hin & Hpos).
  assert (0 <= rmax) by (specialize (Hall r Hin); lra).
  assert (0 <= dmin).
  { assert (Hin' : In dmin (d0 :: ds)).
    { subst dmin. clear. revert d0.
      induction ds as [ | z l IH ]; intro d0; [ now left | ].
      cbn [fold_left]. destruct (IH (Rmin d0 z)) as [E | Hin].
      - rewrite <- E. unfold Rmin. destruct (Rle_dec d0 z); cbn; auto.
      - right. now right. }
    rewrite <- Ed in Hin'. unfold lineDists in Hin'.
    clear - Hin'. revert Hin'.
    generalize (tl pp) (removelast pp). intros l1.
    induction l1 as [ | x l1 IH ]; intros [ | y l2 ] Hin; try contradiction.
    cbn [map2] in Hin. destruct Hin as [<- | Hin]; [ apply norm_nonneg | ].
    now apply (IH l2). }
  unfold Rmin. destruct (Rle_dec rmax (dmin / 2.2)); [ assumption | ].
  apply Rmult_le_pos; [ assumption | ]. lra.
Qed.

Lemma bufferDistance_bounds_witness :
  bufferDistance [1; 1] shortLine =
    Ok (Rmin (fold_left Rmax [1] 1)
             (fold_left Rmin [] (distance unitX origin) / 2.2)) /\
  2.2 * Rmin (fold_left Rmax [1] 1)
             (fold_left Rmin [] (distance unitX origin) / 2.2)
  <= distance (item origin shortLine 1) (item origin shortLine 0).
Proof.
  split; [ reflexivity | ].
  destruct (bufferDistance_bounds [1; 1] shortLine _ eq_refl) as (H & _).
  apply (H 0%nat). cbn. lia.
Defined.

(** ** What a quad joins *)

Lemma roundQuads_join (ringCount vertexNum k : Z) (q : Quad) :
  (1 <= vertexNum)%Z -> (0 <= k < ringCount - 1)%Z ->
  In q (roundQuads vertexNum k) -> joinsRings ringCount vertexNum q.
Proof.
  intros Hv Hk Hq. unfold roundQuads in Hq.
  apply in_app_or in Hq. destruct Hq as [Hq | [<- | []]].
  - apply in_map_iff in Hq. destruct Hq as (j & <- & Hj).
    apply In_range in Hj. exists k, j.
    rewrite (Z.mod_small (j + 1) vertexNum) by lia. lia.
  - exists k, (vertexNum - 1)%Z.
    replace (vertexNum - 1 + 1)%Z with vertexNum by lia.
    rewrite Z.mod_same by lia. lia.
Qed.

(** X7.  Every quad [(a, b, c, d)] of the face list runs along one edge
    of a ring and back along the same edge of the next ring: [a] is
    vertex [j] of some ring [k < ringCount - 1], [b] is vertex
    [(j+1) mod vertexNum] of the same ring, and [c] and [d] are the
    vertices of ring [k+1] at the positions of [b] and [a]. *)
Theorem buildFaces_quads_join_rings (ringCount vertexNum : Z) :
  (2 <= ringCount)%Z -> (1 <= vertexNum)%Z ->
  exists quads,
    buildFaces ringCount vertexNum = Ok quads /\
    Forall (joinsRings ringCount vertexNum) quads.
Proof.
  intros Hn Hv. eexists. split; [ apply buildFaces_rounds; exact Hn | ].
  apply Forall_forall. intros q Hq.
  apply in_flat_map in Hq. destruct Hq as (k & Hk & Hq).
  apply In_range in Hk.
  now apply (roundQuads_join ringCount vertexNum k).
Qed.

Lemma buildFaces_quads_join_rings_witness :
  ((2 <= 3)%Z /\ (1 <= 4)%Z) /\
  exists quads,
    buildFaces 3 4 = Ok quads /\ Forall (joinsRings 3 4) quads.
Proof.
  split; [ lia | ].
  apply (buildFaces_quads_join_rings 3 4); lia.
Defined.

(** ** A [vertex_num] of 0 *)

(** X8.  With a radius that fits, [vertex_num = 0] makes [lineToMesh]
    raise [ZeroDivisionError], whatever the line, the empty line
    included: the angle step [pi*2/vertex_num] is computed before the
    distances. *)
Theorem lineToMesh_zero_vertex_num (pp : list Point) (radius : radius_arg) :
  radiusOk radius (length pp) ->
  lineToMesh pp radius 0 = Raise ZeroDivisionError.
Proof.
  intro Hr.
  destruct (process_radius_ok radius (length pp) Hr) as (rad & E & _).
  unfold lineToMesh, lineToMesh_rings. rewrite E. reflexivity.
Qed.

Lemma lineToMesh_zero_vertex_num_witness :
  radiusOk (RScalar 1) (length shortLine) /\
  lineToMesh shortLine (RScalar 1) 0 = Raise ZeroDivisionError.
Proof.
  split; [ exact I | ].
  apply (lineToMesh_zero_vertex_num shortLine (RScalar 1)). exact I.
Defined.

(** ** Invariants of the rings *)

Section RingInvariant.

Variable pp : list Point.
Variable radius : list R.
Variables angle_cos angle_sin : list R.
Variable bufdist : R.
Variable lclosed : bool.
Variable normals : list Point.

(** A property of frames that every propagation of the assembly keeps. *)
Variable F : Point * Point -> Prop.

Hypothesis F_init :
  F (getSpanVectors (item origin normals 0) (mkPoint 0 0 1) (mkPoint 0 1 0)).
Hypothesis F_cylinder :
  forall i f, (i < length pp - 1)%nat -> F f ->
    F (getSpanVectors (item origin normals i) (fst f) (snd f)).
Hypothesis F_joint :
  forall i f, (i < length pp - 1)%nat ->
    negb lclosed && Nat.eqb i (length pp - 2) = false -> F f ->
    F (getSpanVectors (jointNormal normals i) (fst f) (snd f)).
Hypothesis F_closing :
  forall f, lclosed = true -> F f ->
    F (getSpanVectors (item_last origin normals) (fst f) (snd f)).

(** What holds of every ring. *)
Local Abbreviation ringOk r :=
  (F (ring_frame r) /\ ringPlaced angle_cos angle_sin r /\
   length (ring_normals r) = length (ring_vertices r)).

Local Abbreviation stateOk st :=
  (F (asm_a st, asm_b st) /\
   asm_circm st = getCircle angle_cos angle_sin (asm_a st) (asm_b st) /\
   Forall (fun r => ringOk r) (asm_rings st)).

Lemma tubeRing_ok (f : Point * Point) (s : R) (c : Point) :
  F f ->
  ringOk (tubeRing f (getCircle angle_cos angle_sin (fst f) (snd f)) s c).
Proof.
  intro Hf. unfold ringPlaced, tubeRing.
  cbn [ring_frame ring_scale ring_center ring_vertices ring_normals].
  repeat split; [ exact Hf | ]. now rewrite length_place.
Qed.

Lemma capRing_ok (f : Point * Point) (s : R) (c apex : Point) :
  F f ->
  ringOk (capRing f (getCircle angle_cos angle_sin (fst f) (snd f)) s c apex).
Proof.
  intro Hf. unfold ringPlaced, capRing, capNormals.
  cbn [ring_frame ring_scale ring_center ring_vertices ring_normals].
  repeat split; [ exact Hf | ]. now rewrite length_map.
Qed.

Lemma cylinder_ok (i : nat) (st : Asm) :
  (i < length pp - 1)%nat -> stateOk st ->
  stateOk (cylinder pp radius angle_cos angle_sin bufdist normals i st).
Proof.
  intros Hi (Hf & Hc & Hr). rewrite cylinder_unfold.
  cbn [asm_a asm_b asm_circm asm_rings].
  pose proof (F_cylinder i (asm_a st, asm_b st) Hi Hf) as Hf'.
  cbn [fst snd] in Hf'.
  split; [ now rewrite <- surjective_pairing | ].
  split; [ reflexivity | ].
  apply Forall_app. split; [ exact Hr | ].
  repeat constructor; now apply tubeRing_ok.
Qed.

Lemma joint_ok (i : nat) (st : Asm) :
  (i < length pp - 1)%nat ->
  negb lclosed && Nat.eqb i (length pp - 2) = false -> stateOk st ->
  stateOk (joint pp radius angle_cos angle_sin bufdist normals i st).
Proof.
  intros Hi Hb (Hf & Hc & Hr). rewrite joint_unfold.
  cbn [asm_a asm_b asm_circm asm_rings].
  pose proof (F_joint i (asm_a st, asm_b st) Hi Hb Hf) as Hf'.
  cbn [fst snd] in Hf'.
  split; [ now rewrite <- surjective_pairing | ].
  split; [ reflexivity | ].
  apply Forall_app. split; [ exact Hr | ].
  repeat constructor; now apply tubeRing_ok.
Qed.

Lemma sweep_ok (l : list nat) (st : Asm) :
  (forall i, In i l -> (i < length pp - 1)%nat) -> stateOk st ->
  stateOk (sweep pp radius angle_cos angle_sin bufdist lclosed normals l st).
Proof.
  revert st. induction l as [ | i l IH ]; intros st Hl H; [ exact H | ].
  rewrite sweep_cons.
  assert (Hi : (i < length pp - 1)%nat) by (apply Hl; now left).
  destruct (negb lclosed && Nat.eqb i (length pp - 2)) eqn:Hb.
  - now apply cylinder_ok.
  - apply IH; [ intros j Hj; apply Hl; now right | ].
    apply joint_ok; [ exact Hi | exact Hb | ]. now apply cylinder_ok.
Qed.

(** The state in which the sweep starts, and the state in which it
    enters line piece [i]. *)
Lemma start_ok :
  stateOk
    (let st0 := initialState angle_cos angle_sin normals in
     mkAsm (asm_a st0) (asm_b st0) (asm_circm st0)
           (if lclosed then []
            else map (startCapRing pp radius bufdist normals st0)
                     [5; 4; 3; 2; 1]%Z)).
Proof.
  cbv zeta. rewrite initialState_unfold.
  cbn [asm_a asm_b asm_circm asm_rings].
  split; [ now rewrite <- surjective_pairing | ].
  split; [ reflexivity | ].
  destruct lclosed; [ constructor | ].
  apply Forall_forall. intros r Hr.
  apply in_map_iff in Hr. destruct Hr as (j & <- & _).
  unfold startCapRing. cbn [asm_a asm_b asm_circm].
  apply (capRing_ok (_, _)).
  rewrite <- surjective_pairing. exact F_init.
Qed.

Lemma entering_ok (i : nat) :
  (i <= length pp - 1)%nat ->
  stateOk
    (sweep pp radius angle_cos angle_sin bufdist lclosed normals (seq 0 i)
       (let st0 := initialState angle_cos angle_sin normals in
        mkAsm (asm_a st0) (asm_b st0) (asm_circm st0)
              (if lclosed then []
               else map (startCapRing pp radius bufdist normals st0)
                        [5; 4; 3; 2; 1]%Z))).
Proof.
  intro Hi. apply sweep_ok; [ | apply start_ok ].
  intros j Hj. apply in_seq in Hj. lia.
Qed.

Lemma assemble_ok :
  Forall (fun r => ringOk r)
         (assemble pp radius angle_cos angle_sin bufdist lclosed normals).
Proof.
  rewrite assemble_unfold.
  match goal with
  | |- context [sweep _ _ _ _ _ _ _ ?l ?s] =>
      assert (H : stateOk (sweep pp radius angle_cos angle_sin bufdist
                                 lclosed normals l s))
  end.
  { apply sweep_ok; [ intros i Hi; apply in_seq in Hi; lia | ].
    rewrite initialState_unfold.
    cbn [asm_a asm_b asm_circm asm_rings].
    split; [ now rewrite <- surjective_pairing | ].
    split; [ reflexivity | ].
    destruct lclosed; [ constructor | ].
    apply Forall_forall. intros r Hr.
    apply in_map_iff in Hr. destruct Hr as (j & <- & _).
    unfold startCapRing. cbn [asm_a asm_b asm_circm].
    apply (capRing_ok (_, _)).
    rewrite <- surjective_pairing. exact F_init. }
  destruct H as (Hf & Hc & Hr).
  destruct lclosed eqn:Hcl.
  - rewrite closingRing_unfold. cbn [asm_rings].
    apply Forall_app. split; [ exact Hr | ].
    repeat constructor; apply tubeRing_ok;
      now apply (F_closing (_, _) eq_refl).
  - cbn [asm_rings]. apply Forall_app. split; [ exact Hr | ].
    apply Forall_forall. intros r Hin.
    apply in_map_iff in Hin. destruct Hin as (j & <- & _).
    unfold endCapRing. rewrite Hc.
    apply (capRing_ok (_, _)). exact Hf.
Qed.

End RingInvariant.

(** The mesh is made of the vertices and of the normals of the rings. *)
Lemma lineToMesh_mesh (pp : list Point) (radius : radius_arg)
    (vertex_num : Z) :
  (2 <= length pp)%nat -> (1 <= vertex_num)%Z ->
  radiusOk radius (length pp) ->
  exists rad bufdist rings m,
    process_radius radius (length pp) = Ok rad /\
    bufferDistance rad pp = Ok bufdist /\
    rings = assemble pp rad (map cos (tubeAngles vertex_num))
                     (map sin (tubeAngles vertex_num)) bufdist
                     (isClosed pp) (lineNormals pp) /\
    lineToMesh_rings pp radius vertex_num = Ok rings /\
    lineToMesh pp radius vertex_num = Ok m /\
    vertices m = concat (map ring_vertices rings) /\
    surfaceNormals m = concat (map ring_normals rings).
Proof.
  intros HN Hv Hr.
  destruct (lineToMesh_rings_ok pp radius vertex_num HN ltac:(lia) Hr)
    as (rad & bufdist & Erad & _ & Ebuf & E).
  exists rad, bufdist. eexists. eexists.
  split; [ exact Erad | ]. split; [ exact Ebuf | ].
  split; [ reflexivity | ]. split; [ exact E | ].
  unfold lineToMesh. rewrite E. cbn [bind].
  rewrite buildFaces_rounds.
  - cbn [bind vertices surfaceNormals]. repeat split.
  - rewrite assemble_length by exact HN. destruct (isClosed pp); lia.
Qed.

Lemma length_concat_same {A : Type} (f g : A -> list Point) (l : list A) :
  Forall (fun r => length (f r) = length (g r)) l ->
  length (concat (map f l)) = length (concat (map g l)).
Proof.
  induction 1 as [ | r l Hr Hl IH ]; [ reflexivity | ].
  cbn [map concat]. now rewrite !length_app, IH, Hr.
Qed.

(** X9.  In the mesh that [lineToMesh] returns the normals are aligned
    with the vertices: there are as many of the one as of the other,
    ring by ring. *)
Theorem lineToMesh_normals_aligned (pp : list Point) (radius : radius_arg)
    (vertex_num : Z) :
  (2 <= length pp)%nat -> (1 <= vertex_num)%Z ->
  radiusOk radius (length pp) ->
  exists rings m,
    lineToMesh_rings pp radius vertex_num = Ok rings /\
    lineToMesh pp radius vertex_num = Ok m /\
    Forall (fun r => length (ring_normals r) = length (ring_vertices r))
           rings /\
    length (surfaceNormals m) = length (vertices m).
Proof.
  intros HN Hv Hr.
  destruct (lineToMesh_mesh pp radius vertex_num HN Hv Hr)
    as (rad & bufdist & rings & m & _ & _ & Er & E & Em & Evs & Ens).
  assert (H : Forall (fun r => length (ring_normals r)
                               = length (ring_vertices r)) rings).
  { rewrite Er.
    eapply Forall_impl;
      [ | apply (assemble_ok pp rad _ _ bufdist (isClosed pp)
                             (lineNormals pp) (fun _ => True)); auto ].
    cbv beta. intros r (_ & _ & Hl). exact Hl. }
  exists rings, m. repeat split; try assumption.
  rewrite Evs, Ens. now apply length_concat_same.
Qed.

Lemma lineToMesh_normals_aligned_witness :
  ((2 <= length squareLoop)%nat /\ (1 <= 8)%Z /\
   radiusOk (RScalar 1) (length squareLoop)) /\
  exists m,
    lineToMesh squareLoop (RScalar 1) 8 = Ok m /\
    length (surfaceNormals m) = length (vertices m).
Proof.
  split; [ split; [ cbn; lia | split; [ lia | exact I ] ] | ].
  destruct (lineToMesh_normals_aligned squareLoop (RScalar 1) 8)
    as (rings & m & _ & Em & _ & H); [ cbn; lia | lia | exact I | ].
  exists m. split; assumption.
Defined.

(** ** Every vertex at the radius of its ring *)

Lemma neg_normalize_unit (p : Point) :
  p <> origin -> norm (scale (-1) (normalize p)) = 1.
Proof.
  intro H. rewrite norm_scale_neg. apply normalize_unit.
  now apply norm_pos_nonzero.
Qed.

Lemma norm_scale (s : R) (p : Point) : norm (scale s p) = Rabs s * norm p.
Proof.
  unfold norm. rewrite dot_scale_l, dot_scale_r.
  replace (s * (s * dot p p)) with (Rsqr s * dot p p) by (unfold Rsqr; ring).
  rewrite sqrt_mult; [ | apply Rle_0_sqr | apply dot_self_nonneg ].
  now rewrite sqrt_Rsqr_abs.
Qed.

Lemma normalize_double (n : Point) : norm n = 1 -> normalize (add n n) = n.
Proof.
  intro H.
  assert (E : add n n = scale 2 n) by (clear; coords; f_equal; ring).
  unfold normalize. rewrite E, norm_scale, H, scale_scale.
  rewrite Rabs_right by lra.
  replace (/ (2 * 1) * 2) with 1 by field. apply scale_one.
Qed.

Lemma placed_distance (angles : list R) (f : Point * Point) (s : R)
    (c p : Point) :
  orthonormal f ->
  In p (place s (getCircle (map cos angles) (map sin angles) (fst f) (snd f))
              c) ->
  distance p c = Rabs s.
Proof.
  intros Hf Hp. unfold place in Hp.
  apply in_map_iff in Hp. destruct Hp as (q & <- & Hq).
  destruct (getCircle_item angles _ _ q Hq) as (t & _ & ->).
  unfold distance.
  replace (sub (add (scale s (add (scale (cos t) (fst f))
                                  (scale (sin t) (snd f)))) c) c)
    with (scale s (add (scale (cos t) (fst f)) (scale (sin t) (snd f))))
    by (clear; destruct f; coords; f_equal; ring).
  rewrite norm_scale, circle_point_unit; [ ring | ].
  now destruct f.
Qed.

(** The tangents of a line without repeated points have length 1. *)
Lemma lineNormals_unit (pp : list Point) :
  (2 <= length pp)%nat ->
  (forall i, (i < length pp - 1)%nat ->
     item origin pp i <> item origin pp (i + 1)) ->
  (forall i, (i < length pp - 1)%nat ->
     norm (item origin (lineNormals pp) i) = 1) /\
  norm (item_last origin (lineNormals pp)) = 1.
Proof.
  intros HN Hd. split.
  - intros i Hi. rewrite lineNormals_item by exact Hi.
    apply neg_normalize_unit, sub_nonzero.
    intro E. now apply (Hd i Hi).
  - rewrite lineNormals_last by lia.
    apply neg_normalize_unit.
    destruct (isClosed pp).
    + apply sub_nonzero. apply (Hd 0%nat). lia.
    + apply sub_nonzero. unfold item_last2, item_last.
      specialize (Hd (length pp - 2)%nat ltac:(lia)). unfold item in Hd.
      replace (length pp - 2 + 1)%nat with (length pp - 1)%nat in Hd by lia.
      exact Hd.
Qed.

(** ** The vertices of a ring, one by one *)

Lemma getCircle_nth (angles : list R) (a b : Point) (k : nat) :
  (k < length angles)%nat ->
  nth k (getCircle (map cos angles) (map sin angles) a b) origin =
  circlePoint a b (nth k angles 0).
Proof.
  intro Hk. unfold getCircle.
  match goal with
  | |- nth k (map ?f _) origin = _ => set (g := f)
  end.
  rewrite (nth_indep _ origin (g (cos 0, sin 0)))
    by now rewrite length_map, length_cos_sin.
  rewrite map_nth, combine_nth by now rewrite !length_map.
  rewrite !map_nth. reflexivity.
Qed.

Lemma place_nth (s : R) (circm : list Point) (c : Point) (k : nat) :
  (k < length circm)%nat ->
  nth k (place s circm c) origin = add (scale s (nth k circm origin)) c.
Proof.
  intro Hk. unfold place.
  rewrite (nth_indep _ origin (add (scale s origin) c))
    by now rewrite length_map.
  now rewrite (map_nth (fun p => add (scale s p) c)).
Qed.

(** A ring of the tube proper has one vertex and one normal per angle:
    the normal is the point of the unit circle of the frame, the vertex
    that point scaled and moved. *)
Lemma tubeRing_lengths (angles : list R) (f : Point * Point) (s : R)
    (c : Point) :
  let r := tubeRing f (getCircle (map cos angles) (map sin angles)
                                 (fst f) (snd f)) s c in
  length (ring_vertices r) = length angles /\
  length (ring_normals r) = length angles.
Proof.
  cbv zeta. unfold tubeRing. cbn [ring_vertices ring_normals].
  now rewrite length_place, length_getCircle, length_cos_sin.
Qed.

Lemma tubeRing_nth (angles : list R) (f : Point * Point) (s : R)
    (c : Point) (k : nat) :
  (k < length angles)%nat ->
  let r := tubeRing f (getCircle (map cos angles) (map sin angles)
                                 (fst f) (snd f)) s c in
  nth k (ring_vertices r) origin =
    add (scale s (circlePoint (fst f) (snd f) (nth k angles 0))) c /\
  nth k (ring_normals r) origin =
    circlePoint (fst f) (snd f) (nth k angles 0).
Proof.
  intro Hk. cbv zeta. unfold tubeRing. cbn [ring_vertices ring_normals].
  rewrite place_nth by now rewrite length_getCircle, length_cos_sin.
  now rewrite getCircle_nth.
Qed.

(** With an orthonormal frame orthogonal to [n], the vertices lie on the
    circle of radius [|s|] around [c] in the plane through [c] that is
    orthogonal to [n]. *)
Lemma tubeRing_geometry (angles : list R) (f : Point * Point) (s : R)
    (c n : Point) :
  orthonormal f -> dot (fst f) n = 0 -> dot (snd f) n = 0 ->
  Forall (fun p => distance p c = Rabs s /\ dot (sub p c) n = 0)
         (ring_vertices
            (tubeRing f (getCircle (map cos angles) (map sin angles)
                                   (fst f) (snd f)) s c)).
Proof.
  intros Hf Ha Hb. apply Forall_forall. intros p Hp.
  unfold tubeRing in Hp. cbn [ring_vertices] in Hp.
  split; [ now apply (placed_distance angles f) | ].
  unfold place in Hp.
  apply in_map_iff in Hp. destruct Hp as (q & <- & Hq).
  destruct (getCircle_item angles _ _ q Hq) as (t & _ & ->).
  replace (dot (sub (add (scale s (add (scale (cos t) (fst f))
                                       (scale (sin t) (snd f)))) c) c) n)
    with (s * (cos t * dot (fst f) n + sin t * dot (snd f) n))
    by (clear; destruct f; coords; ring).
  rewrite Ha, Hb. ring.
Qed.

(** There is at least one angle. *)
Lemma tubeAngles_nonempty (vertex_num : Z) :
  (1 <= vertex_num)%Z -> (1 <= length (tubeAngles vertex_num))%nat.
Proof.
  intro Hv. unfold tubeAngles. rewrite length_arange.
  unfold arange_len, ceilR.
  assert (Hr : 1 <= IZR vertex_num) by now apply IZR_le.
  rewrite angle_quotient by lra.
  pose proof PI2_1 as Hpi.
  set (q := 0.0001 / (2 * PI)).
  assert (Hq : q * (2 * PI) = 0.0001) by (subst q; field; lra).
  assert (Hq1 : q < 1).
  { apply Rmult_lt_reg_r with (2 * PI); [ lra | ]. rewrite Hq. lra. }
  set (x := IZR vertex_num - IZR vertex_num * q).
  assert (Hx : 0 < x) by (subst x; nra).
  destruct (archimed (- x)) as [Hup _].
  assert (Hz : (up (- x) <= 0)%Z).
  { destruct (Z_le_gt_dec (up (- x)) 0) as [ | Hgt ]; [ assumption | ].
    exfalso.
    assert (H1 : (1 <= up (- x))%Z) by lia.
    apply IZR_le in H1.
    destruct (archimed (- x)) as [_ Hlow]. lra. }
  lia.
Qed.

(** ** Regular lines *)

(** On a regular line every propagation of the frame starts from an
    orthonormal pair and a unit tangent. *)
Lemma jointNormal_unit (pp : list Point) (i : nat) :
  regular pp -> (i < length pp - 1)%nat ->
  negb (isClosed pp) && Nat.eqb i (length pp - 2) = false ->
  norm (jointNormal (lineNormals pp) i) = 1.
Proof.
  intros [_ Hj] Hi Hb. unfold jointNormal.
  apply normalize_unit, norm_pos_nonzero. now apply Hj.
Qed.

Lemma regular_propagation (pp : list Point) :
  (2 <= length pp)%nat -> regular pp ->
  orthonormal (getSpanVectors (item origin (lineNormals pp) 0)
                              (mkPoint 0 0 1) (mkPoint 0 1 0)) /\
  (forall i f, (i < length pp - 1)%nat -> orthonormal f ->
     orthonormal (getSpanVectors (item origin (lineNormals pp) i)
                                 (fst f) (snd f))) /\
  (forall i f, (i < length pp - 1)%nat ->
     negb (isClosed pp) && Nat.eqb i (length pp - 2) = false ->
     orthonormal f ->
     orthonormal (getSpanVectors (jointNormal (lineNormals pp) i)
                                 (fst f) (snd f))) /\
  (forall f, isClosed pp = true -> orthonormal f ->
     orthonormal (getSpanVectors (item_last origin (lineNormals pp))
                                 (fst f) (snd f))).
Proof.
  intros HN Hreg.
  destruct (lineNormals_unit pp HN (proj1 Hreg)) as [Hu Hlast].
  split; [ | split; [ | split ] ].
  - apply getSpanVectors_frame;
      [ apply Hu; lia | apply initial_pair_orthonormal ].
  - intros i f Hi Hf. apply getSpanVectors_frame; [ now apply Hu | ].
    now destruct f.
  - intros i f Hi Hb Hf. apply getSpanVectors_frame; [ | now destruct f ].
    now apply jointNormal_unit.
  - intros f _ Hf. apply getSpanVectors_frame; [ exact Hlast | ].
    now destruct f.
Qed.

(** The rings of line piece [i] of a regular line: the two rings of its
    cylinder, sampled with an orthonormal frame [f] orthogonal to the
    tangent of the piece, and then either the six rings of the end cap
    (last piece of an open line) or the ring of the joint, sampled with
    the frame that [getSpanVectors] makes of the joint's tangent and
    [f]. *)
Lemma line_piece_rings (pp : list Point) (radius : radius_arg)
    (vertex_num : Z) (i : nat) :
  (2 <= length pp)%nat -> (1 <= vertex_num)%Z ->
  radiusOk radius (length pp) -> regular pp ->
  (i < length pp - 1)%nat ->
  exists rad bufdist rings before rest f,
    process_radius radius (length pp) = Ok rad /\
    bufferDistance rad pp = Ok bufdist /\
    lineToMesh_rings pp radius vertex_num = Ok rings /\
    length before = ((if isClosed pp then 0 else 5) + 3 * i)%nat /\
    let normals := lineNormals pp in
    let angles := tubeAngles vertex_num in
    let circle g :=
      getCircle (map cos angles) (map sin angles) (fst g) (snd g) in
    rings =
      before ++
      tubeRing f (circle f) (item 0 rad i)
               (add (item origin pp i)
                    (scale bufdist (item origin normals i)))
      :: tubeRing f (circle f) (item 0 rad (i + 1))
                  (sub (item origin pp (i + 1))
                       (scale bufdist (item origin normals i)))
      :: rest /\
    orthonormal f /\
    dot (fst f) (item origin normals i) = 0 /\
    dot (snd f) (item origin normals i) = 0 /\
    if negb (isClosed pp) && Nat.eqb i (length pp - 2)
    then length rest = 6%nat
    else
      exists post,
        let f' := getSpanVectors (jointNormal normals i) (fst f) (snd f) in
        rest = tubeRing f' (circle f') (item 0 rad (i + 1))
                        (jointCenter pp bufdist normals i) :: post /\
        norm (jointNormal normals i) = 1 /\
        orthonormal f' /\
        dot (fst f') (jointNormal normals i) = 0 /\
        dot (snd f') (jointNormal normals i) = 0.
Proof.
  intros HN Hv Hr Hreg Hi.
  destruct (lineToMesh_rings_ok pp radius vertex_num HN ltac:(lia) Hr)
    as (rad & bufdist & Erad & _ & Ebuf & E).
  destruct (regular_propagation pp HN Hreg) as (P1 & P2 & P3 & P4).
  destruct (lineNormals_unit pp HN (proj1 Hreg)) as [Hu _].
  pose proof (entering_ok pp rad (map cos (tubeAngles vertex_num))
                (map sin (tubeAngles vertex_num)) bufdist (isClosed pp)
                (lineNormals pp) orthonormal P1 P2 P3 P4 i ltac:(lia))
    as (Hst & _ & _).
  cbv zeta in Hst.
  match type of Hst with
  | orthonormal (asm_a ?s, asm_b ?s) => set (st := s) in *
  end.
  pose proof (getSpanVectors_frame (item origin (lineNormals pp) i)
                (asm_a st) (asm_b st) (Hu i Hi) Hst) as (Hf & Hfa & Hfb & _).
  cbv zeta in Hf, Hfa, Hfb.
  set (f := getSpanVectors (item origin (lineNormals pp) i)
                           (asm_a st) (asm_b st)) in *.
  exists rad, bufdist,
    (assemble pp rad (map cos (tubeAngles vertex_num))
       (map sin (tubeAngles vertex_num)) bufdist (isClosed pp)
       (lineNormals pp)).
  destruct (negb (isClosed pp) && Nat.eqb i (length pp - 2)) eqn:Hb.
  - apply andb_true_iff in Hb. destruct Hb as [Ho Hi2].
    apply negb_true_iff in Ho. apply Nat.eqb_eq in Hi2.
    destruct (assemble_open_end pp rad (map cos (tubeAngles vertex_num))
                (map sin (tubeAngles vertex_num)) bufdist (isClosed pp)
                (lineNormals pp) Ho HN) as [Hl Ea].
    cbv zeta in Hl, Ea. rewrite <- Hi2 in Hl, Ea.
    fold st in Hl, Ea. fold f in Ea. cbn [app] in Ea.
    eexists (asm_rings st), _, f.
    split; [ exact Erad | ]. split; [ exact Ebuf | ]. split; [ exact E | ].
    split; [ rewrite Hl, Ho; reflexivity | ].
    cbv zeta.
    split; [ exact Ea | ].
    split; [ exact Hf | ]. split; [ exact Hfa | ]. split; [ exact Hfb | ].
    now rewrite length_map.
  - destruct (assemble_at_joint pp rad (map cos (tubeAngles vertex_num))
                (map sin (tubeAngles vertex_num)) bufdist (isClosed pp)
                (lineNormals pp) i Hi Hb) as (post & Hl & Ea).
    fold st in Hl, Ea. fold f in Ea. cbn [app] in Ea.
    pose proof (getSpanVectors_frame (jointNormal (lineNormals pp) i)
                  (fst f) (snd f) (jointNormal_unit pp i Hreg Hi Hb))
      as Hj.
    cbv zeta in Hj.
    destruct Hj as (Hf' & Hfa' & Hfb' & _).
    { unfold orthonormal in *. cbn [fst snd]. exact Hf. }
    eexists (asm_rings st), _, f.
    split; [ exact Erad | ]. split; [ exact Ebuf | ]. split; [ exact E | ].
    split; [ exact Hl | ].
    cbv zeta.
    split; [ exact Ea | ].
    split; [ exact Hf | ]. split; [ exact Hfa | ]. split; [ exact Hfb | ].
    exists post.
    split; [ reflexivity | ].
    split; [ now apply jointNormal_unit | ].
    split; [ exact Hf' | ]. split; [ exact Hfa' | exact Hfb' ].
Qed.

(** ** The joints *)

(** C5.  On a regular line, after every line piece [i] except the last
    one of an open line, the two rings of the cylinder are followed by
    one joint ring.  With [(prevA, prevB)] the frame of the cylinder, the
    joint ring is sampled with the frame [(a, b)] that [getSpanVectors]
    makes of the normalised [normal[i] + normal[i+1]] and
    [(prevA, prevB)]: its vertex for angle [t] is
    [radius[i+1] * (cos t * a + sin t * b)] moved to
    [0.5858*pp[i+1] +
     0.4142*(0.5*((pp[i+1] + bufdist*normal[i+1]) + (pp[i+1] - bufdist*normal[i])))],
    so that its vertices lie at distance [|radius[i+1]|] from that point,
    in the plane orthogonal to the normalised [normal[i] + normal[i+1]].
    After the last line piece of an open line the six rings of the end
    cap follow at once.  The rings of line piece [i] start at position
    [3*i], after the five rings of the start cap when the line is
    open, and a closed line has one more ring after its last joint. *)
Theorem joint_ring_after_line_piece (pp : list Point) (radius : radius_arg)
    (vertex_num : Z) :
  (2 <= length pp)%nat -> (1 <= vertex_num)%Z ->
  radiusOk radius (length pp) -> regular pp ->
  exists rad bufdist rings,
    process_radius radius (length pp) = Ok rad /\
    bufferDistance rad pp = Ok bufdist /\
    lineToMesh_rings pp radius vertex_num = Ok rings /\
    length rings =
      (if isClosed pp then 3 * (length pp - 1) + 1
       else 5 + 3 * (length pp - 2) + 2 + 6)%nat /\
    let normals := lineNormals pp in
    let angles := tubeAngles vertex_num in
    (1 <= length angles)%nat /\
    (IZR vertex_num * 0.0001 < 2 * PI ->
     length angles = Z.to_nat vertex_num) /\
    forall i, (i < length pp - 1)%nat ->
    exists before ring1 ring2 rest prevA prevB,
      rings = before ++ ring1 :: ring2 :: rest /\
      length before = ((if isClosed pp then 0 else 5) + 3 * i)%nat /\
      let normal1 := item origin normals i in
      let normal2 := item origin normals (i + 1) in
      let point2 := item origin pp (i + 1) in
      let r := item 0 rad (i + 1) in
      orthonormal (prevA, prevB) /\
      length (ring_vertices ring2) = length angles /\
      (forall k, (k < length angles)%nat ->
         nth k (ring_vertices ring2) origin =
         add (scale r (circlePoint prevA prevB (nth k angles 0)))
             (sub point2 (scale bufdist normal1))) /\
      if negb (isClosed pp) && Nat.eqb i (length pp - 2)
      then length rest = 6%nat
      else
        exists joint after a b,
          rest = joint :: after /\
          let normal12 := normalize (add normal1 normal2) in
          let point12 :=
            add (scale 0.5858 point2)
                (scale 0.4142
                   (scale 0.5 (add (add point2 (scale bufdist normal2))
                                   (sub point2 (scale bufdist normal1))))) in
          (a, b) = getSpanVectors normal12 prevA prevB /\
          norm normal12 = 1 /\
          orthonormal (a, b) /\ dot a normal12 = 0 /\ dot b normal12 = 0 /\
          length (ring_vertices joint) = length angles /\
          length (ring_normals joint) = length angles /\
          (forall k, (k < length angles)%nat ->
             nth k (ring_vertices joint) origin =
               add (scale r (circlePoint a b (nth k angles 0))) point12 /\
             nth k (ring_normals joint) origin =
               circlePoint a b (nth k angles 0)) /\
          Forall (fun p => distance p point12 = Rabs r /\
                           dot (sub p point12) normal12 = 0)
                 (ring_vertices joint).
Proof.
  intros HN Hv Hr Hreg.
  destruct (lineToMesh_rings_ok pp radius vertex_num HN ltac:(lia) Hr)
    as (rad & bufdist & Erad & _ & Ebuf & E).
  exists rad, bufdist. eexists.
  split; [ exact Erad | ]. split; [ exact Ebuf | ]. split; [ exact E | ].
  split.
  { rewrite assemble_length by exact HN. destruct (isClosed pp); lia. }
  cbv zeta.
  split; [ now apply tubeAngles_nonempty | ].
  split; [ now apply tubeAngles_length | ].
  intros i Hi.
  destruct (line_piece_rings pp radius vertex_num i HN Hv Hr Hreg Hi)
    as (rad' & bufdist' & rings' & before & rest & f & Erad' & Ebuf' & E'
        & Hl & H).
  rewrite Erad in Erad'. injection Erad' as <-.
  rewrite Ebuf in Ebuf'. injection Ebuf' as <-.
  rewrite E in E'. injection E' as <-.
  cbv zeta in H. destruct H as (Er & Hf & Hfa & Hfb & Hrest).
  eexists before, _, _, rest, (fst f), (snd f).
  split; [ exact Er | ]. split; [ exact Hl | ].
  split; [ exact Hf | ].
  split; [ apply tubeRing_lengths | ].
  split.
  { intros k Hk. apply (tubeRing_nth (tubeAngles vertex_num) f). exact Hk. }
  destruct (negb (isClosed pp) && Nat.eqb i (length pp - 2));
    [ exact Hrest | ].
  destruct Hrest as (post & Erest & Hn & Hf' & Hfa' & Hfb').
  set (f' := getSpanVectors (jointNormal (lineNormals pp) i) (fst f) (snd f))
    in *.
  eexists _, post, (fst f'), (snd f').
  split; [ exact Erest | ].
  split; [ apply surjective_pairing | ].
  split; [ exact Hn | ].
  split; [ exact Hf' | ].
  split; [ exact Hfa' | ].
  split; [ exact Hfb' | ].
  split; [ apply tubeRing_lengths | ].
  split; [ apply tubeRing_lengths | ].
  split.
  { intros k Hk. apply (tubeRing_nth (tubeAngles vertex_num) f'). exact Hk. }
  now apply tubeRing_geometry.
Qed.

Lemma straightLine_open : isClosed straightLine = false.
Proof.
  unfold isClosed, straightLine, item, item_last, eqb.
  cbn [length Nat.sub nth].
  destruct (Point_eq_dec origin (mkPoint 2 0 0)) as [E | ]; [ | reflexivity ].
  exfalso. injection E. lra.
Qed.

Lemma straightLine_normals :
  item origin (lineNormals straightLine) 0 = mkPoint (-1) 0 0 /\
  item origin (lineNormals straightLine) 1 = mkPoint (-1) 0 0.
Proof.
  split;
    (rewrite lineNormals_item by (cbn; lia);
     unfold item, straightLine; cbn [nth Nat.add]; unit_difference).
Qed.

Lemma straightLine_regular : regular straightLine.
Proof.
  destruct straightLine_normals as [E0 E1].
  split.
  - intros i Hi. cbn in Hi.
    destruct i as [ | [ | i ] ]; [ | | lia ];
      unfold item, straightLine, origin, unitX; cbn [nth Nat.add];
      intro H; injection H; lra.
  - intros i Hi Hb. cbn [length straightLine Nat.sub] in Hi, Hb.
    rewrite straightLine_open in Hb.
    destruct i as [ | [ | i ] ]; [ | discriminate | lia ].
    cbn [Nat.add]. rewrite E0, E1.
    unfold add, origin. cbn [px py pz]. intro H. injection H. lra.
Qed.

(** On the straight line (0,0,0), (1,0,0), (2,0,0) with radius 1 and 4
    vertices per ring, the ring at position 7, after the five rings of
    the start cap and the two of the first cylinder, is the joint ring:
    its 4 vertices lie on the unit circle around (1,0,0) in the plane
    [x = 1]. *)
Lemma joint_ring_after_line_piece_witness :
  ((2 <= length straightLine)%nat /\ (1 <= 4)%Z /\
   radiusOk (RScalar 1) (length straightLine) /\ regular straightLine) /\
  exists rings before ring1 ring2 joint after,
    lineToMesh_rings straightLine (RScalar 1) 4 = Ok rings /\
    rings = before ++ ring1 :: ring2 :: joint :: after /\
    length before = 5%nat /\
    length (ring_vertices joint) = 4%nat /\
    Forall (fun p => distance p (mkPoint 1 0 0) = 1 /\ px p = 1)
           (ring_vertices joint).
Proof.
  split.
  { split; [ cbn; lia | ]. split; [ lia | ].
    split; [ exact I | apply straightLine_regular ]. }
  destruct (joint_ring_after_line_piece straightLine (RScalar 1) 4)
    as (rad & bufdist & rings & Erad & _ & E & _ & _ & Hn & H);
    [ cbn; lia | lia | exact I | apply straightLine_regular | ].
  cbn in Erad. injection Erad as <-.
  destruct (H 0%nat ltac:(cbn; lia))
    as (before & ring1 & ring2 & rest & prevA & prevB & Er & Hl & _ & _ & _
        & Hj).
  rewrite straightLine_open in Hl, Hj.
  cbn [length straightLine Nat.sub Nat.eqb negb andb] in Hj.
  destruct Hj as (joint & after & a & b & Erest & _ & _ & _ & _ & _ & Hlen
                  & _ & _ & Hgeo).
  destruct straightLine_normals as [E0 E1].
  cbn [Nat.add] in Hgeo. rewrite E0, E1 in Hgeo.
  exists rings, before, ring1, ring2, joint, after.
  split; [ exact E | ].
  split; [ now rewrite Er, Erest | ].
  split; [ exact Hl | ].
  split.
  { rewrite Hlen. apply Hn. pose proof PI2_1. lra. }
  eapply Forall_impl; [ | exact Hgeo ].
  cbv beta. intros p [Hd Hp].
  assert (Ec : add (scale 0.5858 (item origin straightLine 1))
                   (scale 0.4142
                      (scale 0.5
                         (add (add (item origin straightLine 1)
                                   (scale bufdist (mkPoint (-1) 0 0)))
                              (sub (item origin straightLine 1)
                                   (scale bufdist (mkPoint (-1) 0 0))))))
               = mkPoint 1 0 0).
  { unfold item, straightLine, unitX, add, sub, scale.
    cbn [nth px py pz]. f_equal; lra. }
  assert (En : normalize (add (mkPoint (-1) 0 0) (mkPoint (-1) 0 0))
               = mkPoint (-1) 0 0).
  { apply normalize_double. apply norm_one_dot.
    unfold dot. cbn [px py pz]. ring. }
  rewrite Ec in Hd, Hp. rewrite En in Hp.
  split.
  - rewrite Hd. unfold item. cbn [nth].
    rewrite Rabs_right; lra.
  - destruct p as [x y z]. unfold dot, sub in Hp. cbn [px py pz] in *. lra.
Defined.

(** ** The ring that ends a closed line *)





(** ** The cylinders *)

(** X10.  On a regular line the two rings of the cylinder of line piece
    [i] are sampled with one orthonormal frame [(a, b)] orthogonal to
    the tangent [normal[i]]: for every angle [t] the first ring has the
    vertex [pp[i] + bufdist*normal[i] + radius[i]*(cos t*a + sin t*b)],
    the second the vertex
    [pp[i+1] - bufdist*normal[i] + radius[i+1]*(cos t*a + sin t*b)], and
    both have the normal [cos t*a + sin t*b].  So the vertices of each
    ring lie at the distance of its radius from its centre, in the plane
    through the centre that is orthogonal to the tangent. *)
Theorem cylinder_rings (pp : list Point) (radius : radius_arg)
    (vertex_num : Z) (i : nat) :
  (2 <= length pp)%nat -> (1 <= vertex_num)%Z ->
  radiusOk radius (length pp) -> regular pp ->
  (i < length pp - 1)%nat ->
  exists rad bufdist rings before ring1 ring2 rest a b,
    process_radius radius (length pp) = Ok rad /\
    bufferDistance rad pp = Ok bufdist /\
    lineToMesh_rings pp radius vertex_num = Ok rings /\
    rings = before ++ ring1 :: ring2 :: rest /\
    length before = ((if isClosed pp then 0 else 5) + 3 * i)%nat /\
    let angles := tubeAngles vertex_num in
    let n := item origin (lineNormals pp) i in
    let c1 := add (item origin pp i) (scale bufdist n) in
    let c2 := sub (item origin pp (i + 1)) (scale bufdist n) in
    orthonormal (a, b) /\ dot a n = 0 /\ dot b n = 0 /\
    (1 <= length angles)%nat /\
    length (ring_vertices ring1) = length angles /\
    length (ring_vertices ring2) = length angles /\
    (forall k, (k < length angles)%nat ->
       nth k (ring_vertices ring1) origin =
         add (scale (item 0 rad i) (circlePoint a b (nth k angles 0))) c1 /\
       nth k (ring_vertices ring2) origin =
         add (scale (item 0 rad (i + 1)) (circlePoint a b (nth k angles 0)))
             c2 /\
       nth k (ring_normals ring1) origin = circlePoint a b (nth k angles 0) /\
       nth k (ring_normals ring2) origin = circlePoint a b (nth k angles 0)) /\
    Forall (fun p => distance p c1 = Rabs (item 0 rad i) /\
                     dot (sub p c1) n = 0)
           (ring_vertices ring1) /\
    Forall (fun p => distance p c2 = Rabs (item 0 rad (i + 1)) /\
                     dot (sub p c2) n = 0)
           (ring_vertices ring2).
Proof.
  intros HN Hv Hr Hreg Hi.
  destruct (line_piece_rings pp radius vertex_num i HN Hv Hr Hreg Hi)
    as (rad & bufdist & rings & before & rest & f & Erad & Ebuf & E & Hl & H).
  cbv zeta in H. destruct H as (Er & Hf & Hfa & Hfb & _).
  exists rad, bufdist, rings, before. eexists _, _, rest, (fst f), (snd f).
  split; [ exact Erad | ]. split; [ exact Ebuf | ]. split; [ exact E | ].
  split; [ exact Er | ]. split; [ exact Hl | ].
  cbv zeta.
  split; [ exact Hf | ]. split; [ exact Hfa | ]. split; [ exact Hfb | ].
  split; [ now apply tubeAngles_nonempty | ].
  split; [ apply tubeRing_lengths | ].
  split; [ apply tubeRing_lengths | ].
  split.
  { intros k Hk.
    destruct (tubeRing_nth (tubeAngles vertex_num) f (item 0 rad i)
                (add (item origin pp i)
                     (scale bufdist (item origin (lineNormals pp) i)))
                k Hk) as [V1 N1].
    destruct (tubeRing_nth (tubeAngles vertex_num) f (item 0 rad (i + 1))
                (sub (item origin pp (i + 1))
                     (scale bufdist (item origin (lineNormals pp) i)))
                k Hk) as [V2 N2].
    repeat split; assumption. }
  split; now apply tubeRing_geometry.
Qed.

Lemma cylinder_rings_witness :
  ((2 <= length straightLine)%nat /\ (1 <= 4)%Z /\
   radiusOk (RScalar 1) (length straightLine) /\ regular straightLine /\
   (0 < length straightLine - 1)%nat) /\
  exists bufdist rings before ring1 ring2 rest,
    bufferDistance (map (Rmult 1) (repeat 1 3)) straightLine = Ok bufdist /\
    lineToMesh_rings straightLine (RScalar 1) 4 = Ok rings /\
    rings = before ++ ring1 :: ring2 :: rest /\
    length before = 5%nat /\
    length (ring_vertices ring1) = 4%nat /\
    Forall (fun p =>
              distance p (add (item origin straightLine 0)
                              (scale bufdist (mkPoint (-1) 0 0))) = 1)
           (ring_vertices ring1).
Proof.
  split.
  { split; [ cbn; lia | ]. split; [ lia | ]. split; [ exact I | ].
    split; [ apply straightLine_regular | cbn; lia ]. }
  destruct (cylinder_rings straightLine (RScalar 1) 4 0)
    as (rad & bufdist & rings & before & ring1 & ring2 & rest & a & b
        & Erad & Ebuf & E & Er & Hl & _ & _ & _ & _ & Hlen & _ & _ & Hgeo & _);
    [ cbn; lia | lia | exact I | apply straightLine_regular | cbn; lia | ].
  cbn in Erad. injection Erad as <-.
  rewrite straightLine_open in Hl.
  destruct straightLine_normals as [E0 _]. rewrite E0 in Hgeo.
  exists bufdist, rings, before, ring1, ring2, rest.
  split; [ exact Ebuf | ]. split; [ exact E | ]. split; [ exact Er | ].
  split; [ exact Hl | ].
  split.
  { rewrite Hlen. rewrite tubeAngles_length; [ reflexivity | lia | ].
    pose proof PI2_1. lra. }
  eapply Forall_impl; [ | exact Hgeo ].
  cbv beta. intros p [Hd _]. rewrite Hd. unfold item. cbn [nth].
  replace (1 * 1) with 1 by ring. apply Rabs_R1.
Defined.

(** ** A straight line keeps its frame *)



(* ================================================================== *)
(** * Properties of core/misc.py *)

Module MiscFacts.

Import String Ascii Misc.
Local Open Scope string_scope.

(** ** Range *)

Lemma Check_min_max (a b : R) :
  _Check (mkRange a b) = mkRange (Rmin a b) (Rmax a b).
Proof.
  unfold _Check, Rmin, Rmax. cbn [_min _max].
  destruct (Rlt_dec b a), (Rle_dec a b); try lra; reflexivity.
Qed.

(** X12.  [Range(a, b)], [Range(b, a)] and [Range((a, b, ...))] are the
    same range: its [min] is the smaller and its [max] the larger of the
    two numbers, and its [range] is [|b - a|]. *)
Theorem Range_of_two_numbers (a b : R) :
  exists r,
    RangeSet (OfNumber a) b = Return r /\
    RangeSet (OfNumber b) a = Return r /\
    (forall rest x, RangeSet (OfSeq (a :: b :: rest)) x = Return r) /\
    _min r = Rmin a b /\ _max r = Rmax a b /\ _min r <= _max r /\
    range r = Rabs (b - a).
Proof.
  exists (mkRange (Rmin a b) (Rmax a b)). cbn [RangeSet].
  rewrite !Check_min_max, (Rmin_comm b a), (Rmax_comm b a).
  split; [ reflexivity | ]. split; [ reflexivity | ].
  split; [ reflexivity | ]. cbn [_min _max]. unfold range. cbn [_min _max].
  split; [ reflexivity | ]. split; [ reflexivity | ].
  unfold Rmin, Rmax, Rabs.
  destruct (Rle_dec a b), (Rcase_abs (b - a)); split; lra.
Qed.

(** X13.  Setting [min] or [max] keeps the range ordered: the new value
    and the bound that stays are put in order, so that a [min] set above
    [max] becomes the new [max] while the old [max] becomes [min], and
    likewise for a [max] set below [min]. *)
Theorem Range_setters_keep_order (self : Range) (value : R) :
  (_min (set_min self value) = Rmin value (_max self) /\
   _max (set_min self value) = Rmax value (_max self) /\
   _min (set_min self value) <= _max (set_min self value)) /\
  (_min (set_max self value) = Rmin (_min self) value /\
   _max (set_max self value) = Rmax (_min self) value /\
   _min (set_max self value) <= _max (set_max self value)).
Proof.
  unfold set_min, set_max. rewrite !Check_min_max. cbn [_min _max].
  repeat split; unfold Rmin, Rmax; destruct (Rle_dec _ _); lra.
Qed.

(** X14.  An ordered range is reproduced by [Copy] and by the
    constructor applied to it; a tuple or list with fewer than two
    entries makes the constructor raise [IndexError]. *)
Theorem Range_copy (self : Range) :
  _min self <= _max self ->
  Copy self = Return self /\
  (forall x, RangeSet (OfRange self) x = Return self) /\
  (forall l x, (List.length l < 2)%nat ->
     RangeSet (OfSeq l) x = Raises IndexError).
Proof.
  intro H. unfold Copy. cbn [RangeSet].
  assert (E : _Check (mkRange (_min self) (_max self)) = self).
  { unfold _Check. cbn [_min _max].
    destruct (Rlt_dec (_max self) (_min self)); [ lra | now destruct self ]. }
  rewrite E. repeat split.
  intros l x Hl. destruct l as [ | a [ | b l ] ]; try reflexivity.
  cbn in Hl. lia.
Qed.

Lemma Range_copy_witness :
  _min (mkRange 0 1) <= _max (mkRange 0 1) /\
  Copy (mkRange 0 1) = Return (mkRange 0 1).
Proof.
  assert (H : _min (mkRange 0 1) <= _max (mkRange 0 1)) by (cbn; lra).
  split; [ exact H | ].
  exact (proj1 (Range_copy (mkRange 0 1) H)).
Defined.

(** ** getColor *)

Lemma prefix_prefixes (s t : string) :
  prefix s t = true -> In s (prefixes t).
Proof.
  revert s. induction t as [ | c t IH ]; intros [ | a s ] H;
    cbn [prefixes]; try (now left); cbn [prefix] in H; try discriminate.
  right. destruct (ascii_dec a c) as [-> | ]; [ | discriminate ].
  apply in_map. now apply IH.
Qed.

Lemma occursIn_substrings (s t : string) :
  occursIn s t = true -> In s (substrings t).
Proof.
  induction t as [ | c t IH ]; cbn [occursIn substrings]; intro H.
  - rewrite orb_false_r in H. apply in_or_app. left.
    now apply prefix_prefixes.
  - apply orb_true_iff in H. apply in_or_app.
    destruct H as [H | H]; [ left; now apply prefix_prefixes | right; auto ].
Qed.

(** What [getColor] does with each string that occurs in 'rgbycmkw'. *)
Lemma occurring_strings (s : string) :
  occursIn s "rgbycmkw" = true ->
  s = "" \/
  (String.length s = 1%nat /\
   exists c, getitem colorDict s = Return c /\
             List.length c = 3%nat /\
             Forall (fun x => x = PyInt 0 \/ x = PyInt 1) c) \/
  ((2 <= String.length s)%nat /\ getitem colorDict s = Raises (KeyError s)).
Proof.
  intro H. apply occursIn_substrings in H.
  cbv [substrings prefixes List.map List.app] in H.
  repeat (destruct H as [<- | H];
          [ first [ left; reflexivity
                  | right; left; split; [ reflexivity | ];
                    eexists; split; [ reflexivity | ];
                    split; [ reflexivity | ];
                    repeat (apply Forall_cons;
                            [ (left; reflexivity) || (right; reflexivity) | ]);
                    apply Forall_nil
                  | right; right; split; [ cbn; lia | reflexivity ] ] | ]).
  contradiction.
Qed.

Lemma truth_nonempty (s : string) : s <> "" -> truth (PyStr s) = true.
Proof.
  intro H. cbn [truth]. apply negb_true_iff. now apply String.eqb_neq.
Qed.

(** X15.  The strings for which [getColor] returns a colour are the
    eight one-character strings r, g, b, y, c, m, k, w; the colour has
    three components, each the int 0 or the int 1. *)
Theorem getColor_accepted_strings (s descr : string) (c : Color) :
  getColor (PyStr s) descr = Return (Some c) <->
  In (s, c) colorDict /\ String.length s = 1%nat.
Proof.
  split.
  - unfold getColor. destruct (truth (PyStr s)); [ | discriminate ].
    cbn [negb]. destruct (occursIn s "rgbycmkw") eqn:Ho; [ | discriminate ].
    cbn [negb]. apply occursIn_substrings in Ho.
    cbv [substrings prefixes List.map List.app] in Ho.
    repeat (destruct Ho as [<- | Ho];
            [ cbn; intro E;
              first [ discriminate
                    | injection E as <-; split; [ | reflexivity ];
                      cbn; tauto ] | ]).
    contradiction.
  - intros [Hin Hl]. unfold colorDict in Hin. cbn [In] in Hin.
    repeat (destruct Hin as [E | Hin];
            [ injection E as <- <-;
              first [ discriminate Hl | reflexivity ] | ]).
    contradiction.
Qed.

Lemma getColor_accepted_strings_witness :
  getColor (PyStr "r") "getColor" = Return (Some [PyInt 1; PyInt 0; PyInt 0])
  <-> In ("r", [PyInt 1; PyInt 0; PyInt 0]) colorDict /\
      String.length "r" = 1%nat.
Proof.
  exact (getColor_accepted_strings "r" "getColor" [PyInt 1; PyInt 0; PyInt 0]).
Defined.

(** X16.  A string of two or more characters that occurs in 'rgbycmkw'
    (such as 'rg', 'cm' or 'rgbycmkw' itself) passes the test of
    [getColor] and then makes the look-up in [colorDict] raise
    [KeyError]. *)
Theorem getColor_key_error (s descr : string) :
  occursIn s "rgbycmkw" = true -> (2 <= String.length s)%nat ->
  getColor (PyStr s) descr = Raises (KeyError s).
Proof.
  intros Ho Hl.
  destruct (occurring_strings s Ho) as [-> | [(H1 & _) | (_ & E)]];
    [ cbn in Hl; lia | lia | ].
  unfold getColor. rewrite truth_nonempty, Ho, E; [ reflexivity | ].
  intros ->. cbn in Hl. lia.
Qed.

Lemma getColor_key_error_witness :
  (occursIn "rg" "rgbycmkw" = true /\ (2 <= String.length "rg")%nat) /\
  getColor (PyStr "rg") "getColor" = Raises (KeyError "rg").
Proof.
  split; [ split; [ reflexivity | cbn; lia ] | ].
  apply (getColor_key_error "rg" "getColor"); [ reflexivity | cbn; lia ].
Defined.

(** X17.  The colour names of [colorDict] that are longer than one
    character (black, white, red, green, blue, cyan, yellow, magenta) are
    not accepted by [getColor]: it raises [ValueError]. *)
Theorem getColor_rejects_names (key descr : string) (c : Color) :
  In (key, c) colorDict -> (1 < String.length key)%nat ->
  getColor (PyStr key) descr =
  Raises (ValueError ("Error in " ++ descr ++ ": "
                      ++ "string color must be one of 'rgbycmkw' !")).
Proof.
  intros Hin Hl. unfold colorDict in Hin. cbn [In] in Hin.
  repeat (destruct Hin as [E | Hin];
          [ injection E as <- <-;
            first [ reflexivity | cbn in Hl; lia ] | ]).
  contradiction.
Qed.

Lemma getColor_rejects_names_witness :
  (In ("red", [PyInt 1; PyInt 0; PyInt 0]) colorDict /\
   (1 < String.length "red")%nat) /\
  getColor (PyStr "red") "getColor" =
  Raises (ValueError ("Error in " ++ "getColor" ++ ": "
                      ++ "string color must be one of 'rgbycmkw' !")).
Proof.
  assert (H : In ("red", [PyInt 1; PyInt 0; PyInt 0]) colorDict)
    by (cbn; tauto).
  split; [ split; [ exact H | cbn; lia ] | ].
  apply (getColor_rejects_names "red" "getColor" _ H). cbn. lia.
Defined.

(** X18.  Whatever the value, a colour that [getColor] returns has three
    components, and [None] is returned exactly for the values that count
    as false ([None], the empty string, the empty list or tuple, ...). *)
Theorem getColor_result (value : PyValue) (descr : string) :
  (forall c, getColor value descr = Return (Some c) ->
             List.length c = 3%nat) /\
  (getColor value descr = Return None <-> truth value = false).
Proof.
  split.
  - intros c H. destruct value as [ | s | l | t ].
    + discriminate.
    + apply getColor_accepted_strings in H. destruct H as [Hin _].
      unfold colorDict in Hin. cbn [In] in Hin.
      repeat (destruct Hin as [E | Hin]; [ now injection E as <- <- | ]).
      contradiction.
    + unfold getColor in H. destruct (truth (PySeq l)); [ | discriminate ].
      cbn [negb] in H.
      destruct (Nat.eqb (List.length l) 3) eqn:E; [ | discriminate ].
      injection H as <-. now apply Nat.eqb_eq.
    + unfold getColor in H. destruct (truth (PyOther t)); discriminate.
  - unfold getColor. destruct (truth value) eqn:Ht; cbn [negb].
    + split; [ | discriminate ].
      destruct value as [ | s | l | t ]; try discriminate.
      * destruct (negb (occursIn s "rgbycmkw")); [ discriminate | ].
        destruct (getitem colorDict s); discriminate.
      * destruct (negb (Nat.eqb (List.length l) 3)); discriminate.
    + split; reflexivity.
Qed.

End MiscFacts.

(* ================================================================== *)
(** * Properties of getOpenGlCapable *)

Module GlFacts.

Import String Ascii Misc.
Local Open Scope string_scope.

Lemma existsb_head (w : string) (l : list string) :
  existsb (String.eqb w) (w :: l) = true.
Proof. cbn [existsb]. now rewrite String.eqb_refl. Qed.

(** One call: the answer and the globals afterwards, [info] being the
    four strings in force (the stored ones, or those just fetched). *)
Lemma getOpenGlCapable_unfold (glGetString : GlName -> option string)
    (version : Version) (what : option string) (g : Globals) :
  let info :=
    if isFalse (fst (fst (fst (_glInfo g)))) then
      (glGetString GL_VERSION, glGetString GL_VENDOR,
       glGetString GL_RENDERER, glGetString GL_EXTENSIONS)
    else _glInfo g in
  let cur := fst (fst (fst info)) in
  let g' := mkGlobals info (_glLimitations g) (printed g) in
  let warn w :=
    negb (String.eqb w "")
    && negb (existsb (String.eqb w) (_glLimitations g)) in
  getOpenGlCapable glGetString version what g =
  if isFalse cur then (false, g')
  else if String.leb (str version) (match cur with Some c => c | None => "" end)
  then (true, g')
  else match what with
       | Some w =>
           if warn w then
             (false,
              mkGlobals info (w :: _glLimitations g)
                (printed g ++
                 ["Warning: the OpenGl version on this system is too low "
                  ++ "to support " ++ w ++ ". "
                  ++ "Try updating your drivers or buy a new video card."]))
           else (false, g')
       | None => (false, g')
       end.
Proof.
  destruct g as [[[[v0 ve] re] ex] lims out].
  unfold getOpenGlCapable, getOpenGlInfo.
  cbn [_glInfo _glLimitations printed fst snd].
  destruct (isFalse v0) eqn:E0.
  - cbn [_glInfo _glLimitations printed fst snd].
    destruct (glGetString GL_VERSION) as [c | ]; cbn [isFalse]; [ | reflexivity ].
    destruct (String.eqb c ""); [ reflexivity | ].
    destruct (String.leb (str version) c); [ reflexivity | ].
    destruct what as [w | ]; [ | reflexivity ].
    destruct (negb (String.eqb w "") && negb (existsb (String.eqb w) lims));
      reflexivity.
  - destruct v0 as [c | ]; [ | discriminate ].
    cbn [_glInfo _glLimitations printed fst snd isFalse] in E0 |- *.
    rewrite !E0.
    destruct (String.leb (str version) c); [ reflexivity | ].
    destruct what as [w | ]; [ | reflexivity ].
    destruct (negb (String.eqb w "") && negb (existsb (String.eqb w) lims));
      reflexivity.
Qed.

(** X19.  A warning is printed only the first time: when a call of
    [getOpenGlCapable] has answered [False], a call that follows with the
    same [what], whatever the version asked for, prints nothing and
    records nothing. *)
Theorem getOpenGlCapable_warns_once
    (glGetString : GlName -> option string) (version1 version2 : Version)
    (what : option string) (g : Globals) :
  fst (getOpenGlCapable glGetString version1 what g) = false ->
  let g1 := snd (getOpenGlCapable glGetString version1 what g) in
  let g2 := snd (getOpenGlCapable glGetString version2 what g1) in
  printed g2 = printed g1 /\ _glLimitations g2 = _glLimitations g1.
Proof.
  intro H. cbv zeta.
  rewrite (getOpenGlCapable_unfold glGetString version2).
  rewrite (getOpenGlCapable_unfold glGetString version1) in H |- *.
  cbv zeta in H |- *.
  set (info := if isFalse (fst (fst (fst (_glInfo g))))
               then (glGetString GL_VERSION, glGetString GL_VENDOR,
                     glGetString GL_RENDERER, glGetString GL_EXTENSIONS)
               else _glInfo g) in *.
  assert (Hinfo : forall lims out,
            (if isFalse (fst (fst (fst (_glInfo (mkGlobals info lims out)))))
             then (glGetString GL_VERSION, glGetString GL_VENDOR,
                   glGetString GL_RENDERER, glGetString GL_EXTENSIONS)
             else _glInfo (mkGlobals info lims out)) = info).
  { intros lims out. cbn [_glInfo].
    destruct (isFalse (fst (fst (fst info)))) eqn:Ei; [ | reflexivity ].
    subst info.
    destruct (isFalse (fst (fst (fst (_glInfo g))))) eqn:Eg;
      [ reflexivity | congruence ]. }
  destruct (isFalse (fst (fst (fst info)))) eqn:Ecur.
  { cbn [snd]. rewrite Hinfo, Ecur. cbn [snd printed _glLimitations]. auto. }
  destruct (String.leb (str version1) _); [ discriminate | ].
  destruct what as [w | ].
  - destruct (negb (String.eqb w "")
              && negb (existsb (String.eqb w) (_glLimitations g))) eqn:Ew;
      cbn [snd]; rewrite Hinfo, Ecur;
      cbn [_glLimitations printed].
    + rewrite existsb_head, andb_false_r.
      destruct (String.leb _ _); cbn [snd printed _glLimitations]; auto.
    + rewrite Ew.
      destruct (String.leb _ _); cbn [snd printed _glLimitations]; auto.
  - cbn [snd]. rewrite Hinfo, Ecur.
    destruct (String.leb _ _); cbn [snd printed _glLimitations]; auto.
Qed.

Lemma getOpenGlCapable_warns_once_witness :
  let gl := fun _ : GlName => Some "1.5" in
  let g := mkGlobals (None, None, None, None) [] [] in
  fst (getOpenGlCapable gl (VersionStr "2.0") (Some "shading") g) = false /\
  printed (snd (getOpenGlCapable gl (VersionInt 3) (Some "shading")
                  (snd (getOpenGlCapable gl (VersionStr "2.0")
                          (Some "shading") g)))) =
  printed (snd (getOpenGlCapable gl (VersionStr "2.0") (Some "shading") g)).
Proof.
  cbv zeta. split; [ reflexivity | ].
  exact (proj1 (getOpenGlCapable_warns_once
                  (fun _ : GlName => Some "1.5") (VersionStr "2.0")
                  (VersionInt 3) (Some "shading")
                  (mkGlobals (None, None, None, None) [] []) eq_refl)).
Defined.

(** X20.  Every call prints at most one line: either nothing is printed
    and nothing recorded, or the answer is [False], [what] is a
    non-empty string that was not recorded yet, it is recorded now and
    one warning that names it is printed.  An answer [True] never
    prints. *)
Theorem getOpenGlCapable_output
    (glGetString : GlName -> option string) (version : Version)
    (what : option string) (g : Globals) :
  let r := fst (getOpenGlCapable glGetString version what g) in
  let g1 := snd (getOpenGlCapable glGetString version what g) in
  (printed g1 = printed g /\ _glLimitations g1 = _glLimitations g) \/
  (r = false /\
   exists w,
     what = Some w /\ w <> "" /\ ~ In w (_glLimitations g) /\
     _glLimitations g1 = w :: _glLimitations g /\
     printed g1 =
     List.app (printed g)
       [("Warning: the OpenGl version on this system is too low "
         ++ "to support " ++ w ++ ". "
         ++ "Try updating your drivers or buy a new video card.")%string]).
Proof.
  cbv zeta. rewrite getOpenGlCapable_unfold. cbv zeta.
  destruct (isFalse _); [ left; split; reflexivity | ].
  destruct (String.leb _ _); [ left; split; reflexivity | ].
  destruct what as [w | ]; [ | left; split; reflexivity ].
  destruct (negb (String.eqb w "")
            && negb (existsb (String.eqb w) (_glLimitations g))) eqn:Ew;
    [ | left; split; reflexivity ].
  right. split; [ reflexivity | ]. exists w.
  apply andb_true_iff in Ew. destruct Ew as [E1 E2].
  apply negb_true_iff in E1, E2. apply String.eqb_neq in E1.
  repeat split; try assumption.
  intro Hin. assert (existsb (String.eqb w) (_glLimitations g) = true).
  { apply existsb_exists. exists w. split; [ exact Hin | apply String.eqb_refl ]. }
  congruence.
Qed.

End GlFacts.

(* ================================================================== *)
(** * Further properties of the mesh *)

(** X21.  As long as [vertex_num * 0.0001 < 2*pi] (up to 62831), the
    faces of the mesh that [lineToMesh] returns refer to vertices of the
    mesh: every index of every quad is at least 0 and less than the number
    of vertices, which is the number of rings times [vertex_num]. *)
Theorem lineToMesh_faces_refer_to_vertices (pp : list Point)
    (radius : radius_arg) (vertex_num : Z) :
  (2 <= length pp)%nat -> (1 <= vertex_num)%Z ->
  IZR vertex_num * 0.0001 < 2 * PI ->
  radiusOk radius (length pp) ->
  exists rings m,
    lineToMesh_rings pp radius vertex_num = Ok rings /\
    lineToMesh pp radius vertex_num = Ok m /\
    Z.of_nat (length (vertices m)) =
      (Z.of_nat (length rings) * vertex_num)%Z /\
    Forall (quadBelow (Z.of_nat (length (vertices m)))) (faces m).
Proof.
  intros HN Hv Hsmall Hr.
  destruct (lineToMesh_counts pp radius vertex_num HN Hv Hr)
    as (rings & m & E1 & E2 & Hl & Hvs & Hf & _).
  rewrite tubeAngles_length in Hvs by assumption.
  assert (Hn : Z.of_nat (length (vertices m)) =
               (Z.of_nat (length rings) * vertex_num)%Z)
    by (rewrite Hvs; lia).
  exists rings, m. repeat split; try assumption.
  rewrite Hn, Hf. apply Forall_forall. intros q Hq.
  apply in_flat_map in Hq. destruct Hq as (k & Hk & Hq).
  apply In_range in Hk.
  now apply (roundQuads_below _ vertex_num k).
Qed.

Lemma lineToMesh_faces_refer_to_vertices_witness :
  ((2 <= length shortLine)%nat /\ (1 <= 8)%Z /\ IZR 8 * 0.0001 < 2 * PI /\
   radiusOk (RScalar 1) (length shortLine)) /\
  exists m,
    lineToMesh shortLine (RScalar 1) 8 = Ok m /\
    Forall (quadBelow (Z.of_nat (length (vertices m)))) (faces m).
Proof.
  assert (Hs : IZR 8 * 0.0001 < 2 * PI) by (pose proof PI2_1; lra).
  split.
  { split; [ cbn; lia | ]. split; [ lia | ]. split; [ exact Hs | exact I ]. }
  destruct (lineToMesh_faces_refer_to_vertices shortLine (RScalar 1) 8)
    as (rings & m & _ & Em & _ & H); [ cbn; lia | lia | exact Hs | exact I | ].
  exists m. split; assumption.
Defined.
